(** * Contact / subsidiary uploader: name resolution, pipeline and review tool

    A shallow embedding of [uploader.py] and [review_tool.py].

    Modelling conventions.
    - A Python [str] is a Rocq [string]; the text-processing functions work
      on its character list.  Characters are the 256 code points of
      Latin-1 (Rocq's 8-bit [ascii]); the classes [\w], [\s], [\d] and
      [str.lower] are the Unicode ones restricted to that range.
    - A Python [float] score or threshold is a rational [Q]; only
      comparisons are performed on scores.
    - Dictionaries with string keys (CSV rows, the statistics dictionary,
      Firestore map fields) are [gmap string _].
    - The four [rapidfuzz] metrics belong to an external library and are
      taken as parameters ([FuzzMetrics]).
    - The Firestore database is explicit state: documents, a list of
      pending faults deciding which remote calls raise, and a log of the
      calls that reached the remote. *)

From Stdlib Require Import ZArith QArith Ascii String List Bool Lia Sorted.
From stdpp Require Import base option list gmap strings.

Local Open Scope string_scope.
Local Open Scope list_scope.

(* ====================================================================== *)
(** * Characters and strings (Python [str] restricted to Latin-1)         *)
(* ====================================================================== *)

Definition code (c : ascii) : N := N_of_ascii c.

Definition in_range (lo hi : N) (c : ascii) : bool :=
  ((lo <=? code c) && (code c <=? hi))%N.

(** [str.isspace] / [\s] *)
Definition is_space (c : ascii) : bool :=
  in_range 9 13 c || in_range 28 32 c || (code c =? 133)%N || (code c =? 160)%N.

(** [\d]: decimal digits *)
Definition is_decimal (c : ascii) : bool := in_range 48 57 c.

(** [str.isalnum] *)
Definition is_alnum (c : ascii) : bool :=
  in_range 48 57 c || in_range 65 90 c || in_range 97 122 c
  || (code c =? 170)%N || in_range 178 179 c || (code c =? 181)%N
  || in_range 185 186 c || in_range 188 190 c
  || in_range 192 214 c || in_range 216 246 c || in_range 248 255 c.

(** [\w]: alphanumeric or underscore *)
Definition is_word (c : ascii) : bool := is_alnum c || (code c =? 95)%N.

Definition is_upper (c : ascii) : bool :=
  in_range 65 90 c || (in_range 192 222 c && negb (code c =? 215)%N).

Definition lower_char (c : ascii) : ascii :=
  if is_upper c then ascii_of_N (code c + 32) else c.

Definition chars (s : string) : list ascii := list_ascii_of_string s.

(** [s.lower()] *)
Definition str_lower (s : list ascii) : list ascii := map lower_char s.

Fixpoint lstrip (s : list ascii) : list ascii :=
  match s with
  | [] => []
  | c :: t => if is_space c then lstrip t else s
  end.

Definition rstrip (s : list ascii) : list ascii := rev (lstrip (rev s)).

(** [s.strip()] *)
Definition strip (s : list ascii) : list ascii := rstrip (lstrip s).

(** [s.replace(c, by)] for a one-character pattern *)
Definition replace_char (c : ascii) (by_ : list ascii) (s : list ascii) : list ascii :=
  flat_map (fun x => if Ascii.eqb x c then by_ else [x]) s.

(* ====================================================================== *)
(** * The regular expressions used by the normalizer                      *)
(* ====================================================================== *)

(** A matcher tells, at a position of the subject (the character before
    the position, the text from the position on), how many characters the
    pattern consumes there, if it matches. *)
Definition matcher := option ascii -> list ascii -> option nat.

(** [re.sub(pattern, repl, s)]: leftmost non-overlapping matches, scanning
    left to right; [skip] counts the characters of the current match that
    are still to be consumed.  None of the patterns below matches the empty
    string. *)
Fixpoint re_sub_from (m : matcher) (repl : list ascii)
    (prev : option ascii) (skip : nat) (s : list ascii) : list ascii :=
  match s with
  | [] => []
  | c :: t =>
      match skip with
      | S k => re_sub_from m repl (Some c) k t
      | O =>
          match m prev s with
          | Some (S k) => repl ++ re_sub_from m repl (Some c) k t
          | _ => c :: re_sub_from m repl (Some c) 0 t
          end
      end
  end.

Definition re_sub (m : matcher) (repl : list ascii) (s : list ascii) : list ascii :=
  re_sub_from m repl None 0 s.

Definition is_word_opt (o : option ascii) : bool :=
  match o with Some c => is_word c | None => false end.

(** [\b] between the character [prev] and the head of [s] *)
Definition at_boundary (prev : option ascii) (s : list ascii) : bool :=
  xorb (is_word_opt prev) (is_word_opt (head s)).

(** A pattern of the shape [\b lit x? \b], matched with [re.IGNORECASE]. *)
Record suffix_re := SufRe { re_lit : string; re_opt : option ascii }.

Definition char_eq_ci (p c : ascii) : bool :=
  Ascii.eqb (lower_char p) (lower_char c).

(** Matches the literal at the head of [s]; returns the last character
    consumed and the rest. *)
Fixpoint match_literal (lit s : list ascii) (last : option ascii)
    : option (option ascii * list ascii) :=
  match lit with
  | [] => Some (last, s)
  | p :: lit' =>
      match s with
      | c :: t => if char_eq_ci p c then match_literal lit' t (Some c) else None
      | [] => None
      end
  end.

(** The optional character is greedy; the matcher backtracks to the match
    without it when the closing [\b] fails. *)
Definition match_suffix (p : suffix_re) : matcher := fun prev s =>
  if at_boundary prev s then
    match match_literal (chars (re_lit p)) s prev with
    | Some (last, r1) =>
        let short :=
          if at_boundary last r1 then Some (length (chars (re_lit p))) else None in
        match re_opt p, r1 with
        | Some o, c :: r2 =>
            if char_eq_ci o c && at_boundary (Some c) r2
            then Some (S (length (chars (re_lit p))))
            else short
        | _, _ => short
        end
    | None => None
    end
  else None.

Definition COMPANY_SUFFIXES : list suffix_re :=
  [ SufRe "inc" (Some "."%char); SufRe "incorporated" None;
    SufRe "corp" (Some "."%char); SufRe "corporation" None;
    SufRe "llc" (Some "."%char); SufRe "l.l.c" (Some "."%char);
    SufRe "limited" None; SufRe "ltd" (Some "."%char);
    SufRe "co" (Some "."%char); SufRe "company" None;
    SufRe "plc" (Some "."%char); SufRe "p.l.c" (Some "."%char);
    SufRe "s.a" (Some "."%char); SufRe "sa" None; SufRe "ag" None;
    SufRe "gmbh" None; SufRe "llp" (Some "."%char);
    SufRe "l.p" (Some "."%char); SufRe "holding" (Some "s"%char);
    SufRe "group" None; SufRe "enterprise" (Some "s"%char);
    SufRe "industrie" (Some "s"%char); SufRe "system" (Some "s"%char);
    SufRe "technologie" (Some "s"%char); SufRe "tech" None;
    SufRe "intl" (Some "."%char); SufRe "international" None;
    SufRe "global" None ].

(** [\d+\b]: the longest run of digits that is followed by a boundary. *)
Fixpoint match_digit_run (s : list ascii) : option nat :=
  match s with
  | [] => None
  | c :: t =>
      if is_decimal c then
        match match_digit_run t with
        | Some k => Some (S k)
        | None => if at_boundary (Some c) t then Some 1 else None
        end
      else None
  end.

(** [\b\d+\b] *)
Definition match_number : matcher := fun prev s =>
  if at_boundary prev s then match_digit_run s else None.

Fixpoint space_run (s : list ascii) : nat :=
  match s with
  | [] => 0
  | c :: t => if is_space c then S (space_run t) else 0
  end.

(** [\s+] *)
Definition match_spaces : matcher := fun _ s =>
  match space_run s with
  | O => None
  | k => Some k
  end.

(** [[^\w\s]] replaced by a space *)
Definition blank_punctuation (s : list ascii) : list ascii :=
  map (fun c => if is_word c || is_space c then c else " "%char) s.

Definition strip_suffixes (s : list ascii) : list ascii :=
  fold_left (fun acc p => re_sub (match_suffix p) (chars " ") acc) COMPANY_SUFFIXES s.

(* ====================================================================== *)
(** * Name normalization                                                   *)
(* ====================================================================== *)

Definition symbols_to_words (s : list ascii) : list ascii :=
  let s := replace_char "&" (chars " and ") s in
  let s := replace_char "@" (chars " at ") s in
  let s := replace_char "+" (chars " plus ") s in
  let s := replace_char "/" (chars " ") s in
  let s := replace_char "-" (chars " ") s in
  replace_char "_" (chars " ") s.

Definition normalize_text (s : list ascii) : list ascii :=
  let normalized := strip (str_lower s) in
  let normalized := symbols_to_words normalized in
  let normalized := blank_punctuation normalized in
  let normalized := strip_suffixes normalized in
  let normalized := re_sub match_number [] normalized in
  strip (re_sub match_spaces (chars " ") normalized).

(** [None] is Python's [None]; [not name] also covers the empty string. *)
Definition normalize_company_name (name : option string) : string :=
  match name with
  | None => ""
  | Some EmptyString => ""
  | Some s => string_of_list_ascii (normalize_text (chars s))
  end.

(** String-level wrappers *)
Definition on_chars (f : list ascii -> list ascii) (s : string) : string :=
  string_of_list_ascii (f (chars s)).

Definition py_strip (s : string) : string := on_chars strip s.
Definition py_lower (s : string) : string := on_chars str_lower s.

(** Python truthiness of a [str] *)
Definition nonempty (s : string) : bool := negb (String.eqb s "").

(* ====================================================================== *)
(** * Fuzzy matching                                                       *)
(* ====================================================================== *)

Inductive Disposition := auto_accept | manual_review | reject.

(** A brand document of the registry snapshot; [get_all_brands] stores the
    document id under ['brand_id'], so a brand dictionary is never empty
    (never falsy). *)
Record Brand := mkBrand { brand_id : string; brand_name : string }.

(** The [rapidfuzz.fuzz] functions used by [calculate_similarity]. *)
Class FuzzMetrics := {
  ratio : string -> string -> Q;
  partial_ratio : string -> string -> Q;
  token_sort_ratio : string -> string -> Q;
  token_set_ratio : string -> string -> Q
}.

(** The documented range of every [rapidfuzz] score. *)
Definition metric_in_range (f : string -> string -> Q) : Prop :=
  forall a b, (0 <= f a b /\ f a b <= 100)%Q.

Definition metrics_in_range (M : FuzzMetrics) : Prop :=
  metric_in_range ratio /\ metric_in_range partial_ratio /\
  metric_in_range token_sort_ratio /\ metric_in_range token_set_ratio.

Record FuzzyMatcher := mkMatcher {
  auto_accept_threshold : Q;
  manual_review_threshold : Q;
  reject_threshold : Q
}.

(** [a < b] on floats *)
Definition Qltb (a b : Q) : bool := negb (Qle_bool b a).

(** One step of Python's [max]: the running maximum is replaced only by a
    strictly greater item. *)
Definition py_max (a b : Q) : Q := if Qltb a b then b else a.

Section Matching.
Context {M : FuzzMetrics}.

Definition calculate_similarity (str1 str2 : string) : Q :=
  if negb (nonempty str1) || negb (nonempty str2) then 0%Q
  else
    let ratio_score := ratio str1 str2 in
    let partial := partial_ratio str1 str2 in
    let token_sort := token_sort_ratio str1 str2 in
    let token_set := token_set_ratio str1 str2 in
    py_max (py_max (py_max ratio_score partial) token_sort) token_set.

(** The threshold cascade at the end of [find_best_match]. *)
Definition classify (fm : FuzzyMatcher) (best_score : Q) : Disposition :=
  if Qle_bool (auto_accept_threshold fm) best_score then auto_accept
  else if Qle_bool (manual_review_threshold fm) best_score then manual_review
  else reject.

(** The scan over [enumerate(candidates)], reading the name to compare
    at index [i] of [normalized_candidates]; [None] is [IndexError]. *)
Fixpoint best_scan_at (query : string) (normalized_candidates : list string)
    (i : nat) (candidates : list (string * Brand))
    (best_match : option Brand) (best_score : Q) : option (option Brand * Q) :=
  match candidates with
  | [] => Some (best_match, best_score)
  | (_, brand_data) :: rest =>
      match normalized_candidates !! i with
      | None => None
      | Some name =>
          let score := calculate_similarity query name in
          if Qltb best_score score
          then best_scan_at query normalized_candidates (S i) rest (Some brand_data) score
          else best_scan_at query normalized_candidates (S i) rest best_match best_score
      end
  end.

Definition find_best_match_with (fm : FuzzyMatcher) (query : string)
    (candidates : list (string * Brand))
    (normalized_candidates : option (list string))
    : option (option Brand * Q * Disposition) :=
  if negb (nonempty query) || match candidates with [] => true | _ => false end
  then Some (None, 0%Q, reject)
  else
    let names := match normalized_candidates with
                 | None => map fst candidates
                 | Some l => l
                 end in
    match best_scan_at query names 0 candidates None 0%Q with
    | None => None
    | Some (best_match, best_score) =>
        Some (best_match, best_score, classify fm best_score)
    end.

(** The same scan when [normalized_candidates] is left to its default,
    which is how both pipelines call it. *)
Fixpoint best_scan (query : string) (candidates : list (string * Brand))
    (best_match : option Brand) (best_score : Q) : option Brand * Q :=
  match candidates with
  | [] => (best_match, best_score)
  | (normalized_cand, brand_data) :: rest =>
      let score := calculate_similarity query normalized_cand in
      if Qltb best_score score
      then best_scan query rest (Some brand_data) score
      else best_scan query rest best_match best_score
  end.

Definition find_best_match (fm : FuzzyMatcher) (query : string)
    (candidates : list (string * Brand)) : option Brand * Q * Disposition :=
  if negb (nonempty query) || match candidates with [] => true | _ => false end
  then (None, 0%Q, reject)
  else
    let '(best_match, best_score) := best_scan query candidates None 0%Q in
    (best_match, best_score, classify fm best_score).

(** [matches.sort(key=score, reverse=True)]: stable, descending. *)
Fixpoint insert_desc (x : Brand * Q) (l : list (Brand * Q)) : list (Brand * Q) :=
  match l with
  | [] => [x]
  | y :: l' => if Qltb (snd x) (snd y) then y :: insert_desc x l' else x :: l
  end.

Definition sort_desc (l : list (Brand * Q)) : list (Brand * Q) :=
  foldr insert_desc [] l.

Definition find_all_matches (query : string)
    (candidates : list (string * Brand)) (limit : nat) : list (Brand * Q) :=
  if negb (nonempty query) || match candidates with [] => true | _ => false end
  then []
  else
    take limit
      (sort_desc (map (fun c => (snd c, calculate_similarity query (fst c))) candidates)).
End Matching.

(** A degenerate scorer for running the pipeline on concrete inputs: equal
    strings score 100, different strings 0. *)
Definition exact_metric (a b : string) : Q :=
  if String.eqb a b then 100%Q else 0%Q.

Definition exact_metrics : FuzzMetrics :=
  {| ratio := exact_metric; partial_ratio := exact_metric;
     token_sort_ratio := exact_metric; token_set_ratio := exact_metric |}.

Definition default_matcher : FuzzyMatcher :=
  {| auto_accept_threshold := 90; manual_review_threshold := 80;
     reject_threshold := 80 |}.

(* ====================================================================== *)
(** * The Firestore client                                                 *)
(* ====================================================================== *)

(** The fields of a brand document that the uploader writes. *)
Record Doc := mkDoc {
  social : gmap string string;
  subsidiaries : gmap string bool;
  parent_company : option string;
  parent_id : option string
}.

(** A write operation that reached the remote database. *)
Inductive Call :=
| SetSocial (brand : string) (social_updates : gmap string string)
| SetSubsidiaries (parent : string) (subsidiary_ids : list string)
| SetParentInfo (brand : string) (company : option string) (parent : option string).

(** [faults]: for each coming remote operation, whether it raises (a
    missing entry means no fault).  [calls]: the operations that reached
    the remote, each with the value the client method returned. *)
Record Firestore := mkFirestore {
  docs : gmap string Doc;
  faults : list bool;
  calls : list (Call * bool)
}.

(** The [try] block of a client method: the remote operation raises when a
    fault is pending or when [doc_ref.update] finds no document; the
    [except] clause turns that into [False]. *)
Definition remote_update (fs : Firestore) (c : Call) (key : string)
    (change : Doc -> Doc) : bool * Firestore :=
  let raised := match faults fs with b :: _ => b | [] => false end in
  let pending := tail (faults fs) in
  if raised then (false, mkFirestore (docs fs) pending (calls fs ++ [(c, false)]))
  else
    match docs fs !! key with
    | None => (false, mkFirestore (docs fs) pending (calls fs ++ [(c, false)]))
    | Some d =>
        (true, mkFirestore (<[key := change d]> (docs fs)) pending
                 (calls fs ++ [(c, true)]))
    end.

Definition update_brand_social (fs : Firestore) (brand : string)
    (social_updates : gmap string string) (dry_run : bool) : bool * Firestore :=
  if dry_run then (true, fs)
  else
    remote_update fs (SetSocial brand social_updates) brand
      (fun d => mkDoc (social_updates ∪ social d) (subsidiaries d)
                  (parent_company d) (parent_id d)).

Definition update_brand_parent_info (fs : Firestore) (brand : string)
    (company parent : option string) (dry_run : bool) : bool * Firestore :=
  if dry_run then (true, fs)
  else
    match company, parent with
    | None, None => (true, fs)
    | _, _ =>
        remote_update fs (SetParentInfo brand company parent) brand
          (fun d => mkDoc (social d) (subsidiaries d)
                      (match company with Some c => Some c | None => parent_company d end)
                      (match parent with Some p => Some p | None => parent_id d end))
    end.

Definition update_parent_subsidiaries (fs : Firestore) (parent : string)
    (subsidiary_ids : list string) (dry_run : bool) : bool * Firestore :=
  if dry_run then (true, fs)
  else
    remote_update fs (SetSubsidiaries parent subsidiary_ids) parent
      (fun d => mkDoc (social d)
                  (fold_left (fun m sub_id => <[sub_id := true]> m)
                     subsidiary_ids (subsidiaries d))
                  (parent_company d) (parent_id d)).

(* ====================================================================== *)
(** * The uploader                                                         *)
(* ====================================================================== *)

(** A CSV row as produced by [csv.DictReader]. *)
Abbreviation Row := (gmap string string).

(** [row.get(key, '')] *)
Definition row_get (row : Row) (key : string) : string :=
  default "" (row !! key).

Inductive ReviewItem :=
| ContactReview (company_name normalized : string) (brand_match : Brand)
    (score : Q) (contact_data : Row) (top_matches : list (Brand * Q))
| SubsidiaryReview (parent_name : string) (parent_brand : Brand)
    (subsidiary_name normalized : string) (subsidiary_brand : Brand)
    (score : Q) (top_matches : list (Brand * Q))
| SubsidiaryParentReview (parent_name normalized : string) (parent_brand : Brand)
    (score : Q) (subsidiary_rows : list Row) (top_matches : list (Brand * Q)).

(** The ['type'] discriminator of a review item. *)
Definition item_type (item : ReviewItem) : string :=
  match item with
  | ContactReview _ _ _ _ _ _ => "contact"
  | SubsidiaryReview _ _ _ _ _ _ _ => "subsidiary"
  | SubsidiaryParentReview _ _ _ _ _ _ => "subsidiary_parent"
  end.

Record Unmatched := mkUnmatched {
  um_type : string;
  um_company_name : string;
  um_parent : option string;
  um_normalized : string;
  um_score : Q
}.

(** The run-level configuration of a [DataUploader]. *)
Record Config := mkConfig {
  fuzzy_matcher : FuzzyMatcher;
  dry_run : bool;
  single_company : option string
}.

(** The mutable part of a [DataUploader]. *)
Record Uploader := mkUploader {
  stats : gmap string nat;
  manual_review_queue : list ReviewItem;
  unmatched_companies : list Unmatched;
  firebase_client : Firestore
}.

Definition initial_stats : gmap string nat :=
  list_to_map
    (map (fun k => (k, 0))
       [ "contacts_processed"; "contacts_matched"; "contacts_auto_accepted";
         "contacts_manual_review"; "contacts_rejected"; "contacts_unmatched";
         "subsidiaries_processed"; "subsidiaries_matched";
         "subsidiaries_auto_accepted"; "subsidiaries_manual_review";
         "subsidiaries_rejected"; "subsidiaries_unmatched"; "errors" ]).

Definition new_uploader (client : Firestore) : Uploader :=
  mkUploader initial_stats [] [] client.

(** [self.stats[key] += n] *)
Definition bump (key : string) (n : nat) (u : Uploader) : Uploader :=
  mkUploader (<[key := default 0 (stats u !! key) + n]> (stats u))
    (manual_review_queue u) (unmatched_companies u) (firebase_client u).

Definition enqueue (item : ReviewItem) (u : Uploader) : Uploader :=
  mkUploader (stats u) (manual_review_queue u ++ [item])
    (unmatched_companies u) (firebase_client u).

Definition add_unmatched (r : Unmatched) (u : Uploader) : Uploader :=
  mkUploader (stats u) (manual_review_queue u)
    (unmatched_companies u ++ [r]) (firebase_client u).

Definition with_client (fs : Firestore) (u : Uploader) : Uploader :=
  mkUploader (stats u) (manual_review_queue u) (unmatched_companies u) fs.

Definition social_keys_mapping : list (string * string) :=
  [ ("twitter_url", "twitter"); ("facebook_url", "facebook");
    ("bluesky_url", "bluesky"); ("ir_email", "ir_email");
    ("cs_email", "cs_email"); ("ir_page", "ir_page");
    ("cs_page", "cs_page"); ("domain", "website") ].

(** The non-empty mapped contact fields of a row. *)
Definition social_updates_of (contact : Row) : gmap string string :=
  fold_left
    (fun acc kv =>
       let value := py_strip (row_get contact (fst kv)) in
       if nonempty value then <[snd kv := value]> acc else acc)
    social_keys_mapping ∅.

(** [self.single_company and name.lower() != self.single_company.lower()] *)
Definition filtered_out (cfg : Config) (name : string) : bool :=
  match single_company cfg with
  | None => false
  | Some only =>
      nonempty only && negb (String.eqb (py_lower name) (py_lower only))
  end.

Section Pipeline.
Context {M : FuzzMetrics}.

Definition _upload_contact_info (cfg : Config) (brand : string)
    (contact : Row) (u : Uploader) : Uploader :=
  let social_updates := social_updates_of contact in
  if decide (social_updates = ∅) then u
  else
    let '(success, fs) :=
      update_brand_social (firebase_client u) brand social_updates (dry_run cfg) in
    let u := with_client fs u in
    if success then u else bump "errors" 1 u.

Definition _upload_subsidiary_info (cfg : Config) (parent_brand_id : string)
    (parent_name : string) (matched_subsidiaries : list (string * Brand * Q))
    (u : Uploader) : Uploader :=
  let subsidiary_ids := map (fun m => fst (fst m)) matched_subsidiaries in
  let '(success, fs) :=
    update_parent_subsidiaries (firebase_client u) parent_brand_id
      subsidiary_ids (dry_run cfg) in
  (* [success] only selects what is printed *)
  let u := with_client fs u in
  fold_left
    (fun u m =>
       let '(sub_success, fs) :=
         update_brand_parent_info (firebase_client u) (fst (fst m))
           (Some parent_name) (Some parent_brand_id) (dry_run cfg) in
       let u := with_client fs u in
       if sub_success then u else bump "errors" 1 u)
    matched_subsidiaries u.

(** The body of the loop of [process_contacts]. *)
Definition process_contact (cfg : Config) (brands : list (string * Brand))
    (u : Uploader) (contact : Row) : Uploader :=
  let company_name := py_strip (row_get contact "company_clean") in
  if filtered_out cfg company_name then u
  else if negb (nonempty company_name) then u
  else
    let u := bump "contacts_processed" 1 u in
    let normalized_name := normalize_company_name (Some company_name) in
    let '(best_match, score, status) :=
      find_best_match (fuzzy_matcher cfg) normalized_name brands in
    match status, best_match with
    | reject, _ | _, None =>
        add_unmatched
          (mkUnmatched "contact" company_name None normalized_name score)
          (bump "contacts_rejected" 1 u)
    | auto_accept, Some brand =>
        let u := bump "contacts_auto_accepted" 1 u in
        let u := bump "contacts_matched" 1 u in
        _upload_contact_info cfg (brand_id brand) contact u
    | manual_review, Some brand =>
        let u := bump "contacts_manual_review" 1 u in
        enqueue
          (ContactReview company_name normalized_name brand score contact
             (find_all_matches normalized_name brands 5))
          u
    end.

Definition process_contacts (cfg : Config) (contacts : list Row)
    (brands : list (string * Brand)) (u : Uploader) : Uploader :=
  fold_left (process_contact cfg brands) contacts u.

(** [parent_subsidiaries[parent_name].append(row)] on an insertion-ordered
    dictionary. *)
Fixpoint group_append (key : string) (row : Row)
    (groups : list (string * list Row)) : list (string * list Row) :=
  match groups with
  | [] => [(key, [row])]
  | (k, rows) :: rest =>
      if String.eqb key k then (k, rows ++ [row]) :: rest
      else (k, rows) :: group_append key row rest
  end.

Definition group_by_parent (rows : list Row) : list (string * list Row) :=
  fold_left
    (fun groups row =>
       let parent_name := py_strip (row_get row "company_name") in
       let subsidiary_raw := py_strip (row_get row "subsidiary_name_raw") in
       if nonempty parent_name && nonempty subsidiary_raw
       then group_append parent_name row groups
       else groups)
    rows [].

(** The body of the loop over the rows of one parent group; the state is
    the uploader and the list [matched_subsidiaries]. *)
Definition resolve_child (cfg : Config) (brands : list (string * Brand))
    (parent_name : string) (parent_match : Brand)
    (st : Uploader * list (string * Brand * Q)) (sub_row : Row)
    : Uploader * list (string * Brand * Q) :=
  let '(u, matched_subsidiaries) := st in
  let subsidiary_name := py_strip (row_get sub_row "subsidiary_name_raw") in
  let normalized_sub := normalize_company_name (Some subsidiary_name) in
  let '(sub_match, sub_score, sub_status) :=
    find_best_match (fuzzy_matcher cfg) normalized_sub brands in
  match sub_status, sub_match with
  | reject, _ | _, None =>
      (add_unmatched
         (mkUnmatched "subsidiary" subsidiary_name (Some parent_name)
            normalized_sub sub_score) u,
       matched_subsidiaries)
  | auto_accept, Some sub =>
      (u, matched_subsidiaries ++ [(brand_id sub, sub, sub_score)])
  | manual_review, Some sub =>
      (enqueue
         (SubsidiaryReview parent_name parent_match subsidiary_name
            normalized_sub sub sub_score
            (find_all_matches normalized_sub brands 5)) u,
       matched_subsidiaries)
  end.

(** The body of the loop over the parent groups of [process_subsidiaries]. *)
Definition process_parent_group (cfg : Config) (brands : list (string * Brand))
    (u : Uploader) (group : string * list Row) : Uploader :=
  let '(parent_name, subs_list) := group in
  if filtered_out cfg parent_name then u
  else
    let u := bump "subsidiaries_processed" 1 u in
    let normalized_parent := normalize_company_name (Some parent_name) in
    let '(parent_match, parent_score, parent_status) :=
      find_best_match (fuzzy_matcher cfg) normalized_parent brands in
    match parent_status, parent_match with
    | reject, _ | _, None =>
        add_unmatched
          (mkUnmatched "subsidiary_parent" parent_name None
             normalized_parent parent_score)
          (bump "subsidiaries_rejected" 1 u)
    | status, Some parent =>
        let parent_brand_id := brand_id parent in
        let '(u, matched_subsidiaries) :=
          fold_left (resolve_child cfg brands parent_name parent)
            subs_list (u, []) in
        match status, matched_subsidiaries with
        | auto_accept, _ :: _ =>
            let u := bump "subsidiaries_auto_accepted" 1 u in
            let u := bump "subsidiaries_matched" (length matched_subsidiaries) u in
            _upload_subsidiary_info cfg parent_brand_id parent_name
              matched_subsidiaries u
        | manual_review, _ =>
            let u := bump "subsidiaries_manual_review" 1 u in
            enqueue
              (SubsidiaryParentReview parent_name normalized_parent parent
                 parent_score subs_list
                 (find_all_matches normalized_parent brands 5))
              u
        | _, _ => u
        end
    end.

Definition process_subsidiaries (cfg : Config) (subsidiaries : list Row)
    (brands : list (string * Brand)) (u : Uploader) : Uploader :=
  fold_left (process_parent_group cfg brands) (group_by_parent subsidiaries) u.

(** [main] after the inputs are loaded: contacts, then subsidiaries. *)
Definition run_upload (cfg : Config) (contacts subsidiaries : list Row)
    (brands : list (string * Brand)) (client : Firestore) : Uploader :=
  process_subsidiaries cfg subsidiaries brands
    (process_contacts cfg contacts brands (new_uploader client)).
End Pipeline.

(* ====================================================================== *)
(** * The review tool                                                      *)
(* ====================================================================== *)

(** Returns whether the item was processed ([False]: skipped), and the
    client afterwards.  The tool builds the social updates from the same
    key mapping as the uploader. *)
Definition process_review_item (item : ReviewItem) (choice : string)
    (fs : Firestore) (dry_run : bool) : bool * Firestore :=
  let choice := py_lower choice in
  if String.eqb choice "s" then (false, fs)
  else if String.eqb choice "r" then (true, fs)
  else if String.eqb choice "a" then
    match item with
    | ContactReview _ _ brand_match _ contact_data _ =>
        let social_updates := social_updates_of contact_data in
        if decide (social_updates = ∅) then (true, fs)
        else
          let '(success, fs) :=
            update_brand_social fs (brand_id brand_match) social_updates dry_run in
          if success then (true, fs) else (false, fs)
    | SubsidiaryReview parent_name parent_brand _ _ subsidiary_brand _ _ =>
        let '(_, fs) :=
          update_parent_subsidiaries fs (brand_id parent_brand)
            [brand_id subsidiary_brand] dry_run in
        let '(_, fs) :=
          update_brand_parent_info fs (brand_id subsidiary_brand)
            (Some parent_name) (Some (brand_id parent_brand)) dry_run in
        (true, fs)
    | SubsidiaryParentReview _ _ _ _ _ _ => (true, fs)
    end
  else (false, fs).

(** The prompt loop: reads lines until one is a valid choice.  [None]: the
    input is closed ([input] raises [EOFError]). *)
Fixpoint read_choice (inputs : list string) : option (string * list string) :=
  match inputs with
  | [] => None
  | line :: rest =>
      let choice := py_lower (py_strip line) in
      if String.eqb choice "q" || String.eqb choice "a"
         || String.eqb choice "r" || String.eqb choice "s"
      then Some (choice, rest)
      else read_choice rest
  end.

(** How a review session ends: the remaining items are saved on quit and
    at the end of the queue; nothing is saved when the input is closed. *)
Inductive Outcome :=
| Quit (saved : list ReviewItem) (processed_count : nat)
| Completed (saved : list ReviewItem) (processed_count : nat)
| InputClosed.

(** The loop of [main] over [enumerate(review_items)]; [items] is
    [review_items[i:]]. *)
Fixpoint review_loop (dry_run : bool) (items : list ReviewItem)
    (inputs : list string) (remaining_items : list ReviewItem)
    (processed_count : nat) (fs : Firestore) : Outcome * Firestore :=
  match items with
  | [] => (Completed remaining_items processed_count, fs)
  | item :: rest =>
      match read_choice inputs with
      | None => (InputClosed, fs)
      | Some (choice, inputs) =>
          if String.eqb choice "q"
          then (Quit (remaining_items ++ items) processed_count, fs)
          else
            let '(processed, fs) := process_review_item item choice fs dry_run in
            if processed
            then review_loop dry_run rest inputs remaining_items (S processed_count) fs
            else review_loop dry_run rest inputs (remaining_items ++ [item])
                   processed_count fs
      end
  end.

Definition review_session (dry_run : bool) (review_items : list ReviewItem)
    (inputs : list string) (fs : Firestore) : Outcome * Firestore :=
  review_loop dry_run review_items inputs [] 0 fs.

(* ====================================================================== *)
(** * Notions used in the statements and proofs                           *)
(* ====================================================================== *)

Definition simple_char (c : ascii) : bool := is_alnum c || is_space c.
Definition tidy_char (c : ascii) : bool :=
  simple_char c && Ascii.eqb (lower_char c) c.
Definition solid_char (c : ascii) : bool :=
  tidy_char c && negb (is_space c).

Definition headspace (s : list ascii) : Prop :=
  match s with [] => True | c :: _ => is_space c = true end.

Fixpoint words (s : list ascii) : list (list ascii) :=
  match s with
  | [] => []
  | c :: t =>
      if is_space c then words t
      else
        match t with
        | [] => [[c]]
        | c' :: _ =>
            if is_space c' then [c] :: words t
            else match words t with
                 | w :: ws => (c :: w) :: ws
                 | [] => [[c]]
                 end
        end
  end.

Fixpoint join (ws : list (list ascii)) : list ascii :=
  match ws with
  | [] => []
  | [w] => w
  | w :: ws' => w ++ " "%char :: join ws'
  end.

Fixpoint collapse (in_ws : bool) (s : list ascii) : list ascii :=
  match s with
  | [] => []
  | c :: t =>
      if is_space c then (if in_ws then collapse true t else " "%char :: collapse true t)
      else c :: collapse false t
  end.

Definition last_seen (prev : option ascii) (l : list ascii) : option ascii :=
  fold_left (fun _ c => Some c) l prev.

Definition no_match (m : matcher) (tok : list ascii) : bool :=
  match m None tok with None => true | Some _ => false end.

Record token_matcher (m : matcher) : Prop := {
  tm_space : forall prev c s, is_space c = true -> m prev (c :: s) = None;
  tm_local : forall prev tok rest,
      is_word_opt prev = false -> tok <> [] ->
      Forall (fun c => is_alnum c = true) tok -> headspace rest ->
      m prev (tok ++ rest) = m None tok;
  tm_whole : forall tok n,
      Forall (fun c => is_alnum c = true) tok ->
      m None tok = Some n -> n = length tok;
  tm_inner : forall prev c s,
      is_word_opt prev = true -> is_word c = true -> m prev (c :: s) = None
}.

Definition wf_suffix (p : suffix_re) : bool :=
  match chars (re_lit p) with [] => false | _ :: _ => true end
  && forallb (fun c => negb (is_space (lower_char c))) (chars (re_lit p))
  && match re_opt p with
     | Some o => negb (is_space (lower_char o))
     | None => true
     end.

Definition good_token (t : list ascii) : Prop :=
  t <> [] /\ Forall (fun c => is_space c = false) t.

Definition survives (tok : list ascii) : bool :=
  forallb (fun p => no_match (match_suffix p) tok) COMPANY_SUFFIXES
  && no_match match_number tok.

Definition prepare (s : list ascii) : list ascii :=
  blank_punctuation (symbols_to_words (strip (str_lower s))).

(** The claim that the best match is always the first candidate reaching
    the maximal score. *)
Definition first_max_entity_claim {M : FuzzMetrics} (fm : FuzzyMatcher)
    (query : string) (candidates : list (string * Brand)) : Prop :=
  query <> "" -> candidates <> [] ->
  exists l1 n b l2,
    candidates = l1 ++ (n, b) :: l2
    /\ find_best_match fm query candidates
       = (Some b, calculate_similarity query n,
          classify fm (calculate_similarity query n))
    /\ Forall (fun c => (calculate_similarity query (fst c)
                         < calculate_similarity query n)%Q) l1
    /\ Forall (fun c => (calculate_similarity query (fst c)
                         <= calculate_similarity query n)%Q) l2.

(** The claim that the entity is null exactly when the query or the
    candidate list is empty. *)
Definition null_iff_no_candidates_claim {M : FuzzMetrics} (fm : FuzzyMatcher)
    (query : string) (candidates : list (string * Brand)) : Prop :=
  fst (fst (find_best_match fm query candidates)) = None
  <-> (query = "" \/ candidates = []).

Definition acme_brand : Brand := mkBrand "b1" "Acme Corporation".
Definition zeta_brand : Brand := mkBrand "b2" "Zeta Robotics".
Definition unnamed_brand : Brand := mkBrand "b0" "Inc.".

(** [prepare_brands_for_matching] on a snapshot of three brands *)
Definition sample_brands : list (string * Brand) :=
  map (fun b => (normalize_company_name (Some (brand_name b)), b))
    [unnamed_brand; acme_brand; zeta_brand].



Definition sample_docs : gmap string Doc :=
  {[ "b1" := mkDoc ∅ ∅ None None; "b2" := mkDoc ∅ ∅ None None ]}.

Definition default_config (dry : bool) : Config :=
  mkConfig default_matcher dry None.

(** The list written to the review file, if the session saved one. *)
Definition saved_items (o : Outcome) : list ReviewItem :=
  match o with
  | Quit saved _ | Completed saved _ => saved
  | InputClosed => []
  end.

Definition processed_total (o : Outcome) : nat :=
  match o with
  | Quit _ n | Completed _ n => n
  | InputClosed => 0
  end.

Definition is_quit (o : Outcome) : bool :=
  match o with Quit _ _ => true | _ => false end.

Definition acme_zeta_row : Row :=
  {[ "company_name" := "Acme Inc."; "subsidiary_name_raw" := "Zeta Robotics" ]}.

Definition acme_contact : Row :=
  {[ "company_clean" := "Acme Inc."; "twitter_url" := "https://x.example/acme" ]}.

Definition acme_review : ReviewItem :=
  ContactReview "Acme Inc." "acme" acme_brand 85 acme_contact [(acme_brand, 85%Q)].

Definition zeta_review : ReviewItem :=
  SubsidiaryReview "Acme Inc." acme_brand "Zeta Robotic" "zeta robotic" zeta_brand 88
    [(zeta_brand, 88%Q)].

Definition acme_group_review : ReviewItem :=
  SubsidiaryParentReview "Acme Inc." "acme" acme_brand 85 [acme_zeta_row]
    [(acme_brand, 85%Q)].

(** Every logged call returned [True]. *)
Definition all_succeeded (l : list (Call * bool)) : Prop :=
  Forall (fun c => snd c = true) l.

(** The outputs of a run other than the database. *)
Definition same_outputs (u1 u2 : Uploader) : Prop :=
  stats u1 = stats u2
  /\ manual_review_queue u1 = manual_review_queue u2
  /\ unmatched_companies u1 = unmatched_companies u2.

(** The relation kept between a dry run [u1], whose client stays [c1], and
    a real run [u2] whose log had [n] entries at the start. *)
Definition dry_wet_inv (n : nat) (c1 : Firestore) (u1 u2 : Uploader) : Prop :=
  firebase_client u1 = c1
  /\ n <= length (calls (firebase_client u2))
  /\ (all_succeeded (drop n (calls (firebase_client u2))) -> same_outputs u1 u2).

(** What a client method does to the log when it is not a dry run. *)
Definition logs_outcome (fs : Firestore) (r : bool * Firestore) : Prop :=
  exists new, calls (snd r) = calls fs ++ new /\ (all_succeeded new -> fst r = true).












(** The items visited before the session quits (or its input closes),
    each with the choice entered for it. *)
Fixpoint visited (items : list ReviewItem) (inputs : list string)
    : list (ReviewItem * string) :=
  match items with
  | [] => []
  | item :: rest =>
      match read_choice inputs with
      | None => []
      | Some (choice, inputs) =>
          if String.eqb choice "q" then []
          else (item, choice) :: visited rest inputs
      end
  end.

(** The visited items for which skip was chosen. *)
Definition skipped_items (v : list (ReviewItem * string)) : list ReviewItem :=
  map fst (List.filter (fun ic => String.eqb (snd ic) "s") v).

(** The number of visited items for which accept or reject was chosen. *)
Definition decided_count (v : list (ReviewItem * string)) : nat :=
  length (List.filter
            (fun ic => String.eqb (snd ic) "a" || String.eqb (snd ic) "r") v).

(** An accepted item whose acceptance needs a write that can be reported
    as failed: a contact item with a non-empty update. *)
Definition accept_may_fail (ic : ReviewItem * string) : bool :=
  String.eqb (snd ic) "a"
  && match fst ic with
     | ContactReview _ _ _ _ contact_data _ =>
         negb (bool_decide (social_updates_of contact_data = ∅))
     | _ => false
     end.

Definition keepable (ic : ReviewItem * string) : bool :=
  String.eqb (snd ic) "s" || accept_may_fail ic.

(** A logged contact write that returned [False]. *)
Definition failed_social (c : Call * bool) : bool :=
  match c with
  | (SetSocial _ _, false) => true
  | _ => false
  end.

(** The claim that quitting saves the skipped items followed by the items
    not yet visited, and that [N] accepts and rejects leave [T - N]
    items. *)
Definition quit_saves_skipped_claim (dry_run : bool)
    (review_items : list ReviewItem) (inputs : list string) (fs : Firestore) : Prop :=
  forall saved n fs',
    review_session dry_run review_items inputs fs = (Quit saved n, fs') ->
    saved = skipped_items (visited review_items inputs)
            ++ drop (length (visited review_items inputs)) review_items
    /\ length saved
       = length review_items - decided_count (visited review_items inputs).

(** The suffix words that the patterns of [COMPANY_SUFFIXES] can match once
    punctuation has been blanked. *)
Definition SUFFIX_WORDS : list string :=
  [ "inc"; "incorporated"; "corp"; "corporation"; "llc"; "limited"; "ltd";
    "co"; "company"; "plc"; "sa"; "ag"; "gmbh"; "llp"; "holding"; "holdings";
    "group"; "enterprise"; "enterprises"; "industrie"; "industries";
    "system"; "systems"; "technologie"; "technologies"; "tech"; "intl";
    "international"; "global" ].

(** Dispositions ordered from worst to best. *)
Definition disposition_rank (d : Disposition) : nat :=
  match d with reject => 0 | manual_review => 1 | auto_accept => 2 end.

(** [x] is listed before [y] in a list sorted by score, descending. *)
Definition score_ge (x y : Brand * Q) : Prop := (snd y <= snd x)%Q.

(** The three write methods of the client, as one call description. *)
Definition client_call (fs : Firestore) (c : Call) (dry_run : bool) : bool * Firestore :=
  match c with
  | SetSocial brand updates => update_brand_social fs brand updates dry_run
  | SetSubsidiaries parent ids => update_parent_subsidiaries fs parent ids dry_run
  | SetParentInfo brand company parent =>
      update_brand_parent_info fs brand company parent dry_run
  end.

(** The document a call addresses. *)
Definition call_target (c : Call) : string :=
  match c with
  | SetSocial brand _ | SetParentInfo brand _ _ => brand
  | SetSubsidiaries parent _ => parent
  end.

(** The value of a counter of the statistics dictionary. *)
Definition stat (u : Uploader) (key : string) : nat :=
  default 0 (stats u !! key).

(** The relations between the contact counters, the queue and the
    unmatched list that [process_contacts] keeps. *)
Definition contact_counters_agree (q0 m0 : nat) (u : Uploader) : Prop :=
  stat u "contacts_processed"
  = stat u "contacts_auto_accepted" + stat u "contacts_manual_review"
    + stat u "contacts_rejected"
  /\ stat u "contacts_matched" = stat u "contacts_auto_accepted"
  /\ length (manual_review_queue u) = q0 + stat u "contacts_manual_review"
  /\ length (unmatched_companies u) = m0 + stat u "contacts_rejected".

(** A logged call that failed and is not a parent subsidiary-set merge. *)
Definition counted_failure (entry : Call * bool) : bool :=
  negb (snd entry)
  && match fst entry with SetSubsidiaries _ _ => false | _ => true end.

(** The error counter stands for the counted failures logged since the
    log had [n] entries. *)
Definition errors_track_log (n e0 : nat) (u : Uploader) : Prop :=
  n <= length (calls (firebase_client u))
  /\ stat u "errors"
     = e0 + length (List.filter counted_failure
                      (drop n (calls (firebase_client u)))).

(** The key under which a subsidiary row is grouped. *)
Definition parent_key (row : Row) : string :=
  py_strip (row_get row "company_name").

(** Rows that enter a group: parent name and raw subsidiary name are both
    non-blank. *)
Definition groupable (row : Row) : bool :=
  nonempty (parent_key row)
  && nonempty (py_strip (row_get row "subsidiary_name_raw")).

(** [u'] has the queue and the unmatched list of [u] extended by entries
    whose types are taken from [item_types] and [record_types]. *)
Definition appends_only (item_types record_types : list string) (u u' : Uploader) : Prop :=
  exists items records,
    manual_review_queue u' = manual_review_queue u ++ items
    /\ Forall (fun i => In (item_type i) item_types) items
    /\ unmatched_companies u' = unmatched_companies u ++ records
    /\ Forall (fun r => In (um_type r) record_types) records.

(** A line that the prompt of the review tool accepts as a choice. *)
Definition valid_choice (line : string) : bool :=
  let choice := py_lower (py_strip line) in
  String.eqb choice "q" || String.eqb choice "a"
  || String.eqb choice "r" || String.eqb choice "s".

(** ** Filtering of subsidiary rows

    [filter_subsidiary_data] is a single pass over the rows with two
    tests, [is_extraction_error] and [is_incomplete_subsidiary_data].  The
    tests themselves search the row's text with regular expressions and
    parse an integer; the pass does not depend on how they decide, so they
    are arguments here.  The state of the loop is
    [(filtered_rows, filtered_count, incomplete_count)]. *)
Definition filter_subsidiary_step
    (is_extraction_error is_incomplete_subsidiary_data : Row -> bool)
    (acc : list Row * nat * nat) (row : Row) : list Row * nat * nat :=
  let '(filtered_rows, filtered_count, incomplete_count) := acc in
  if is_extraction_error row then
    (filtered_rows, S filtered_count, incomplete_count)
  else if is_incomplete_subsidiary_data row then
    (filtered_rows, filtered_count, S incomplete_count)
  else
    (filtered_rows ++ [row], filtered_count, incomplete_count).

Definition filter_subsidiary_data
    (is_extraction_error is_incomplete_subsidiary_data : Row -> bool)
    (rows : list Row) : list Row * nat * nat :=
  fold_left
    (filter_subsidiary_step is_extraction_error is_incomplete_subsidiary_data)
    rows ([], 0, 0).

(** A row passes when neither test fires. *)
Definition passes_filters
    (is_extraction_error is_incomplete_subsidiary_data : Row -> bool)
    (row : Row) : bool :=
  negb (is_extraction_error row) && negb (is_incomplete_subsidiary_data row).

(* ====================================================================== *)
(** * Theorems                                                            *)
(* ====================================================================== *)

Ltac all_chars c :=
  destruct c as [[] [] [] [] [] [] [] []]; vm_compute;
  try reflexivity; try discriminate; try tauto.

Lemma char_table (c : ascii) :
  implb (is_space c) (negb (is_word c)) = true
  /\ implb (is_alnum c) (is_word c) = true
  /\ implb (is_space c) (Ascii.eqb (lower_char c) c) = true
  /\ Ascii.eqb (lower_char (lower_char c)) (lower_char c) = true
  /\ implb (is_decimal c) (is_alnum c) = true
  /\ implb (is_word c) (is_alnum c || Ascii.eqb c "_") = true
  /\ implb (is_alnum c) (negb (is_space c)) = true.
Proof. all_chars c. Qed.

Lemma space_not_word c : is_space c = true -> is_word c = false.
Proof.
  intros H. destruct (char_table c) as (T & _). rewrite H in T.
  simpl in T. by apply negb_true_iff.
Qed.

Lemma alnum_word c : is_alnum c = true -> is_word c = true.
Proof. intros H. unfold is_word. by rewrite H. Qed.

Lemma alnum_not_space c : is_alnum c = true -> is_space c = false.
Proof.
  intros H. destruct (char_table c) as (_ & _ & _ & _ & _ & _ & T).
  rewrite H in T. simpl in T. by apply negb_true_iff.
Qed.

Lemma space_lower c : is_space c = true -> lower_char c = c.
Proof.
  intros H. destruct (char_table c) as (_ & _ & T & _). rewrite H in T.
  simpl in T. by apply Ascii.eqb_eq.
Qed.

Lemma lower_char_idem c : lower_char (lower_char c) = lower_char c.
Proof. destruct (char_table c) as (_ & _ & _ & T & _). by apply Ascii.eqb_eq. Qed.

Lemma decimal_alnum c : is_decimal c = true -> is_alnum c = true.
Proof.
  intros H. destruct (char_table c) as (_ & _ & _ & _ & T & _).
  by rewrite H in T.
Qed.

Lemma simple_cases c :
  simple_char c = true ->
  (is_space c = true /\ is_alnum c = false) \/ (is_space c = false /\ is_alnum c = true).
Proof.
  unfold simple_char. intros H. destruct (is_alnum c) eqn:E.
  - right. split; [by apply alnum_not_space | done].
  - left. simpl in H. done.
Qed.

(** ** Words of a string *)

Lemma words_space c s : is_space c = true -> words (c :: s) = words s.
Proof. intros H. simpl. by rewrite H. Qed.

Lemma words_token tok s :
  tok <> [] -> Forall (fun c => is_space c = false) tok -> headspace s ->
  words (tok ++ s) = tok :: words s.
Proof.
  induction tok as [|c tok IH]; [done|].
  intros _ Hall Hs. inversion Hall as [|? ? Hc Htok]; subst.
  destruct tok as [|c2 tok].
  - simpl. rewrite Hc. destruct s as [|c' s']; [done|].
    simpl in Hs. rewrite Hs. reflexivity.
  - assert (E : words ((c2 :: tok) ++ s) = (c2 :: tok) :: words s)
      by (apply IH; done).
    change ((c :: c2 :: tok) ++ s) with (c :: (c2 :: tok) ++ s).
    inversion Htok as [|? ? Hc2 _]; subst.
    cbn [words]. rewrite Hc.
    change (c2 :: tok ++ s) with ((c2 :: tok) ++ s) in *.
    cbn [app]. rewrite Hc2.
    change (c2 :: tok ++ s) with ((c2 :: tok) ++ s) in *.
    by rewrite E.
Qed.

Lemma runs_ind (P : list ascii -> Prop) :
  P [] ->
  (forall c s, is_space c = true -> P s -> P (c :: s)) ->
  (forall tok s, tok <> [] -> Forall (fun c => is_space c = false) tok ->
                 headspace s -> P s -> P (tok ++ s)) ->
  forall s, P s.
Proof.
  intros Hnil Hsp Htok.
  assert (G : forall s acc, Forall (fun c => is_space c = false) acc -> P s ->
                            (acc = [] \/ headspace s) -> P (acc ++ s)).
  { intros s acc Hacc Hs Hh. destruct acc as [|a acc]; [done|].
    destruct Hh as [|Hh]; [done|]. by apply Htok. }
  assert (H : forall s acc, Forall (fun c => is_space c = false) acc -> P (acc ++ s)).
  { induction s as [|c s IH]; intros acc Hacc.
    - apply G; auto. right. exact I.
    - destruct (is_space c) eqn:E.
      + apply G; [exact Hacc | | right; exact E].
        apply Hsp; [exact E|]. apply (IH []). constructor.
      + replace (acc ++ c :: s) with ((acc ++ [c]) ++ s) by (by rewrite <- app_assoc).
        apply IH. apply Forall_app. split; auto. }
  intros s. apply (H s []). constructor.
Qed.

(** ** The substitution scanner *)

Lemma last_seen_word prev l :
  l <> [] -> Forall (fun c => is_alnum c = true) l ->
  is_word_opt (last_seen prev l) = true.
Proof.
  revert prev. induction l as [|c l IH]; [done|]. intros prev _ Hall.
  inversion Hall as [|? ? Hc Hl]; subst. cbn [last_seen fold_left].
  destruct l as [|c2 l].
  - simpl. by apply alnum_word.
  - apply IH; done.
Qed.

Lemma re_sub_skip m r l rest prev :
  re_sub_from m r prev (length l) (l ++ rest)
  = re_sub_from m r (last_seen prev l) 0 rest.
Proof.
  revert prev. induction l as [|c l IH]; intros prev; [done|].
  cbn [length app re_sub_from]. by rewrite IH.
Qed.

Lemma re_sub_hit m r l rest prev :
  l <> [] -> m prev (l ++ rest) = Some (length l) ->
  re_sub_from m r prev 0 (l ++ rest)
  = r ++ re_sub_from m r (last_seen prev l) 0 rest.
Proof.
  destruct l as [|c l]; [done|]. intros _ Hm.
  cbn [app re_sub_from]. cbn [app] in Hm. rewrite Hm. cbn [length].
  by rewrite re_sub_skip.
Qed.

Lemma re_sub_miss m r l rest prev :
  (forall l1 c l2, l = l1 ++ c :: l2 ->
                   m (last_seen prev l1) (c :: l2 ++ rest) = None) ->
  re_sub_from m r prev 0 (l ++ rest)
  = l ++ re_sub_from m r (last_seen prev l) 0 rest.
Proof.
  revert prev. induction l as [|c l IH]; intros prev Hm; [done|].
  pose proof (Hm [] c l eq_refl) as H0. cbn [last_seen fold_left] in H0.
  cbn [app re_sub_from]. rewrite H0. f_equal.
  apply IH. intros l1 c' l2 ->. apply (Hm (c :: l1) c' l2). done.
Qed.

Lemma re_sub_from_Forall (P : ascii -> Prop) m r s :
  Forall P r -> Forall P s ->
  forall prev k, Forall P (re_sub_from m r prev k s).
Proof.
  intros Hr Hs. induction Hs as [|c s Hc Hs IH]; intros prev k; [constructor|].
  cbn [re_sub_from]. destruct k as [|k]; [|apply IH].
  destruct (m prev (c :: s)) as [[|n]|].
  - constructor; auto.
  - apply Forall_app. split; auto.
  - constructor; auto.
Qed.

Section TokenMatcher.
Variables (m : matcher) (repl : list ascii).
Hypothesis Hm : token_matcher m.
Hypothesis Hrepl : Forall (fun c => is_space c = true) repl.

Lemma re_sub_space prev c s :
  is_space c = true ->
  re_sub_from m repl prev 0 (c :: s) = c :: re_sub_from m repl (Some c) 0 s.
Proof. intros Hc. cbn [re_sub_from]. by rewrite (tm_space m Hm). Qed.

Lemma re_sub_headspace prev s :
  headspace s -> headspace (re_sub_from m repl prev 0 s).
Proof.
  destruct s as [|c s]; [done|]. intros Hc. simpl in Hc.
  by rewrite re_sub_space.
Qed.

Lemma re_sub_headspace_prev prev prev' s :
  headspace s ->
  re_sub_from m repl prev 0 s = re_sub_from m repl prev' 0 s.
Proof.
  destruct s as [|c s]; [done|]. intros Hc. simpl in Hc.
  by rewrite !re_sub_space.
Qed.

Lemma words_spaces_app sp s :
  Forall (fun c => is_space c = true) sp -> words (sp ++ s) = words s.
Proof.
  induction 1 as [|c sp Hc _ IH]; [done|].
  change ((c :: sp) ++ s) with (c :: sp ++ s). by rewrite words_space.
Qed.

Lemma re_sub_token prev tok rest :
  is_word_opt prev = false -> tok <> [] ->
  Forall (fun c => is_alnum c = true) tok -> headspace rest ->
  re_sub_from m repl prev 0 (tok ++ rest)
  = (if no_match m tok then tok else repl) ++ re_sub_from m repl None 0 rest.
Proof.
  intros Hprev Hne Htok Hrest.
  pose proof (tm_local m Hm prev tok rest Hprev Hne Htok Hrest) as Hloc.
  unfold no_match. destruct (m None tok) as [n|] eqn:E.
  - pose proof (tm_whole m Hm tok n Htok E) as ->.
    rewrite re_sub_hit; [|done|done]. f_equal.
    by apply re_sub_headspace_prev.
  - rewrite re_sub_miss.
    + f_equal. by apply re_sub_headspace_prev.
    + intros l1 c l2 ->. destruct l1 as [|a l1].
      * exact Hloc.
      * apply (tm_inner m Hm).
        -- apply last_seen_word; [done|].
           apply Forall_app in Htok. tauto.
        -- apply Forall_app in Htok. destruct Htok as [_ H2].
           inversion H2; subst. by apply alnum_word.
Qed.

Lemma re_sub_words s :
  Forall (fun c => simple_char c = true) s ->
  forall prev, is_word_opt prev = false \/ headspace s ->
  words (re_sub_from m repl prev 0 s) = List.filter (no_match m) (words s).
Proof.
  induction s as [|c s Hc IH|tok s Hne Htok Hs IH] using runs_ind;
    intros Hall prev Hprev.
  - done.
  - inversion Hall; subst.
    rewrite re_sub_space, !words_space by done.
    apply IH; [done|]. left. simpl. by apply space_not_word.
  - apply Forall_app in Hall. destruct Hall as [Hall1 Hall2].
    assert (Hal : Forall (fun c => is_alnum c = true) tok).
    { rewrite Forall_forall in *. intros c Hin.
      destruct (simple_cases c (Hall1 c Hin)) as [[H1 _]|[_ H1]]; [|done].
      rewrite (Htok c Hin) in H1. done. }
    assert (Hp : is_word_opt prev = false).
    { destruct Hprev as [|Hh]; [done|]. destruct tok as [|a tok]; [done|].
      inversion Htok; subst. simpl in Hh. congruence. }
    rewrite re_sub_token by done. rewrite (words_token tok s) by done.
    cbn [List.filter]. destruct (no_match m tok).
    + rewrite words_token; [|done|done|by apply re_sub_headspace].
      f_equal. apply IH; [done|]. by right.
    + rewrite words_spaces_app by done. apply IH; [done|]. by right.
Qed.
End TokenMatcher.

(** ** The patterns act on whole tokens *)

Lemma ci_no_space l c :
  negb (is_space (lower_char l)) = true -> is_space c = true ->
  char_eq_ci l c = false.
Proof.
  intros Hl Hc. unfold char_eq_ci. rewrite (space_lower c Hc).
  destruct (Ascii.eqb (lower_char l) c) eqn:E; [|done].
  apply Ascii.eqb_eq in E. rewrite E, Hc in Hl. done.
Qed.

Lemma at_boundary_app o t rest :
  Forall (fun c => is_alnum c = true) t -> headspace rest ->
  at_boundary o (t ++ rest) = at_boundary o t.
Proof.
  intros _ Hrest. destruct t as [|c t]; [|done].
  destruct rest as [|sp rest]; [done|]. simpl in Hrest.
  unfold at_boundary. simpl. by rewrite (space_not_word sp Hrest).
Qed.

Lemma boundary_end l t :
  is_word_opt l = true -> Forall (fun c => is_alnum c = true) t ->
  at_boundary l t = true -> t = [].
Proof.
  intros Hl Ht Hb. destruct t as [|c t]; [done|].
  inversion Ht; subst. unfold at_boundary in Hb. simpl in Hb.
  rewrite Hl, (alnum_word c) in Hb by done. done.
Qed.

Lemma match_literal_local lit tok rest last :
  forallb (fun c => negb (is_space (lower_char c))) lit = true ->
  headspace rest ->
  match_literal lit (tok ++ rest) last
  = match match_literal lit tok last with
    | Some (l', t') => Some (l', t' ++ rest)
    | None => None
    end.
Proof.
  intros Hlit Hrest. revert tok last.
  induction lit as [|p lit IH]; intros tok last; [done|].
  cbn [forallb] in Hlit. apply andb_true_iff in Hlit. destruct Hlit as [Hp Hlit].
  destruct tok as [|c tok].
  - cbn [app match_literal]. destruct rest as [|sp rest]; [done|].
    simpl in Hrest. by rewrite ci_no_space.
  - cbn [app match_literal]. destruct (char_eq_ci p c); [|done]. by apply IH.
Qed.

Lemma match_literal_last lit s last last' :
  lit <> [] -> match_literal lit s last = match_literal lit s last'.
Proof. destruct lit as [|p lit]; [done|]. intros _. by destruct s. Qed.

Lemma match_literal_inv lit tok last l' t' :
  Forall (fun c => is_alnum c = true) tok ->
  is_word_opt last = true \/ lit <> [] ->
  match_literal lit tok last = Some (l', t') ->
  is_word_opt l' = true /\ Forall (fun c => is_alnum c = true) t'
  /\ length tok = length lit + length t'.
Proof.
  revert tok last. induction lit as [|p lit IH]; intros tok last Htok Hor Hm.
  - simpl in Hm. inversion Hm; subst. destruct Hor as [|]; done.
  - destruct tok as [|c tok]; [done|]. cbn [match_literal] in Hm.
    destruct (char_eq_ci p c); [|done]. inversion Htok; subst.
    destruct (IH tok (Some c)) as (G1 & G2 & G3); [done| |done|].
    + left. simpl. by apply alnum_word.
    + split; [done|]. split; [done|]. simpl. lia.
Qed.

Lemma match_suffix_token p : wf_suffix p = true -> token_matcher (match_suffix p).
Proof.
  unfold wf_suffix. intros Hwf.
  apply andb_true_iff in Hwf. destruct Hwf as [Hwf Hopt].
  apply andb_true_iff in Hwf. destruct Hwf as [Hne Hsolid].
  assert (Hlit : chars (re_lit p) <> []) by (by destruct (chars (re_lit p))).
  constructor.
  - intros prev c s Hc. unfold match_suffix.
    destruct (at_boundary prev (c :: s)); [|done].
    destruct (chars (re_lit p)) as [|p0 lit] eqn:E; [done|].
    cbn [match_literal]. cbn [forallb] in Hsolid.
    apply andb_true_iff in Hsolid. destruct Hsolid as [Hp0 _].
    by rewrite ci_no_space.
  - intros prev tok rest Hprev Htokne Htok Hrest. unfold match_suffix.
    assert (Hb : at_boundary prev (tok ++ rest) = at_boundary None tok).
    { destruct tok as [|c tok]; [done|]. unfold at_boundary. simpl.
      by rewrite Hprev. }
    rewrite Hb. destruct (at_boundary None tok); [|done].
    rewrite (match_literal_last _ _ prev None) by done.
    rewrite match_literal_local by done.
    destruct (match_literal (chars (re_lit p)) tok None) as [[l' t']|] eqn:E; [|done].
    destruct (match_literal_inv _ _ _ _ _ Htok (or_intror Hlit) E) as (Hl' & Ht' & Hlen).
    rewrite at_boundary_app by done.
    destruct (re_opt p) as [o|]; [|by destruct t'].
    destruct t' as [|c t'].
    + cbn [app]. destruct rest as [|sp rest]; [done|]. simpl in Hrest.
      by rewrite ci_no_space.
    + cbn [app]. inversion Ht'; subst. by rewrite at_boundary_app.
  - intros tok n Htok. unfold match_suffix.
    destruct (at_boundary None tok); [|done].
    destruct (match_literal (chars (re_lit p)) tok None) as [[l' t']|] eqn:E; [|done].
    destruct (match_literal_inv _ _ _ _ _ Htok (or_intror Hlit) E) as (Hl' & Ht' & Hlen).
    assert (Hshort : (if at_boundary l' t' then Some (length (chars (re_lit p))) else None)
                     = Some n -> n = length tok).
    { destruct (at_boundary l' t') eqn:Eb; [|done]. intros [= <-].
      rewrite (boundary_end l' t') in Hlen by done. simpl in Hlen. lia. }
    destruct (re_opt p) as [o|]; [|by destruct t'].
    destruct t' as [|c t']; [done|].
    destruct (char_eq_ci o c && at_boundary (Some c) t') eqn:Eo; [|done].
    intros [= <-]. apply andb_true_iff in Eo. destruct Eo as [_ Eo].
    inversion Ht'; subst.
    rewrite (boundary_end (Some c) t') in Hlen; [simpl in Hlen; lia| |done|done].
    simpl. by apply alnum_word.
  - intros prev c s Hprev Hc. unfold match_suffix, at_boundary. simpl.
    by rewrite Hprev, Hc.
Qed.

Lemma match_digit_run_local tok rest :
  Forall (fun c => is_alnum c = true) tok -> headspace rest ->
  match_digit_run (tok ++ rest) = match_digit_run tok.
Proof.
  intros Htok Hrest. induction Htok as [|c tok Hc Htok IH].
  - destruct rest as [|sp rest]; [done|]. simpl in Hrest. simpl.
    destruct (is_decimal sp) eqn:E; [|done].
    apply decimal_alnum, alnum_not_space in E. congruence.
  - cbn [app match_digit_run]. rewrite IH. by rewrite at_boundary_app.
Qed.

Lemma match_digit_run_whole tok n :
  Forall (fun c => is_alnum c = true) tok ->
  match_digit_run tok = Some n -> n = length tok.
Proof.
  intros Htok. revert n. induction Htok as [|c tok Hc Htok IH]; intros n; [done|].
  cbn [match_digit_run]. destruct (is_decimal c); [|done].
  destruct (match_digit_run tok) as [k|].
  - intros [= <-]. simpl. f_equal. by apply IH.
  - destruct (at_boundary (Some c) tok) eqn:Eb; [|done]. intros [= <-].
    rewrite (boundary_end (Some c) tok); [done| |done|done].
    simpl. by apply alnum_word.
Qed.

Lemma match_number_token : token_matcher match_number.
Proof.
  constructor.
  - intros prev c s Hc. unfold match_number.
    destruct (at_boundary prev (c :: s)); [|done]. simpl.
    destruct (is_decimal c) eqn:E; [|done].
    apply decimal_alnum, alnum_not_space in E. congruence.
  - intros prev tok rest Hprev Htokne Htok Hrest. unfold match_number.
    assert (Hb : at_boundary prev (tok ++ rest) = at_boundary None tok).
    { destruct tok as [|c tok]; [done|]. unfold at_boundary. simpl.
      by rewrite Hprev. }
    rewrite Hb. by rewrite match_digit_run_local.
  - intros tok n Htok. unfold match_number.
    destruct (at_boundary None tok); [|done]. by apply match_digit_run_whole.
  - intros prev c s Hprev Hc. unfold match_number, at_boundary. simpl.
    by rewrite Hprev, Hc.
Qed.

Lemma COMPANY_SUFFIXES_wf : forallb wf_suffix COMPANY_SUFFIXES = true.
Proof. vm_compute. reflexivity. Qed.

Lemma char_table2 (c : ascii) :
  implb (simple_char c)
    (negb (Ascii.eqb c "&" || Ascii.eqb c "@" || Ascii.eqb c "+"
           || Ascii.eqb c "/" || Ascii.eqb c "-" || Ascii.eqb c "_")) = true
  /\ implb (Ascii.eqb (lower_char c) c && negb (Ascii.eqb c "_"))
       (tidy_char (if is_word c || is_space c then c else " "%char)) = true
  /\ implb (simple_char c) (is_word c || is_space c) = true.
Proof. all_chars c. Qed.

(** ** Whitespace collapsing and stripping *)

Lemma re_sub_spaces_collapse s :
  forall prev,
    re_sub_from match_spaces (chars " ") prev 0 s = collapse false s
    /\ re_sub_from match_spaces (chars " ") prev (space_run s) s = collapse true s.
Proof.
  induction s as [|c s IH]; intros prev; [done|].
  destruct (IH (Some c)) as [IH1 IH2].
  assert (Hm : match_spaces prev (c :: s)
               = if is_space c then Some (S (space_run s)) else None).
  { unfold match_spaces. cbn [space_run]. by destruct (is_space c). }
  cbn [re_sub_from space_run collapse]. rewrite Hm. destruct (is_space c).
  - rewrite IH2. done.
  - rewrite IH1. done.
Qed.

Lemma collapse_token b tok s :
  tok <> [] -> Forall (fun c => is_space c = false) tok ->
  collapse b (tok ++ s) = tok ++ collapse false s.
Proof.
  revert b. induction tok as [|c tok IH]; [done|]. intros b _ Htok.
  inversion Htok as [|? ? Hc Ht]; subst. cbn [app collapse]. rewrite Hc.
  f_equal. destruct tok as [|c2 tok]; [done|]. by apply IH.
Qed.

Lemma collapse_words s :
  exists sp, Forall (fun c => is_space c = true) sp
             /\ collapse true s = join (words s) ++ sp.
Proof.
  induction s as [|c s Hc IH|tok s Hne Htok Hs IH] using runs_ind.
  - by exists [].
  - destruct IH as (sp & Hsp & E). exists sp. split; [done|].
    rewrite words_space by done. cbn [collapse]. by rewrite Hc.
  - destruct IH as (sp & Hsp & E).
    rewrite collapse_token, words_token by done.
    destruct s as [|c s].
    + exists []. split; [done|]. simpl. by rewrite !app_nil_r.
    + simpl in Hs. cbn [collapse] in *. rewrite Hs in *. rewrite E.
      destruct (words (c :: s)) as [|w ws].
      * exists (" "%char :: sp). split; [by constructor|]. done.
      * exists sp. split; [done|]. cbn [join]. by rewrite <- app_assoc.
Qed.

Lemma words_good s : Forall good_token (words s).
Proof.
  induction s as [|c s Hc IH|tok s Hne Htok Hs IH] using runs_ind.
  - constructor.
  - by rewrite words_space.
  - rewrite words_token by done. by constructor.
Qed.

Lemma words_Forall (P : ascii -> Prop) s :
  Forall P s -> Forall (Forall P) (words s).
Proof.
  induction s as [|c s Hc IH|tok s Hne Htok Hs IH] using runs_ind; intros H.
  - constructor.
  - rewrite words_space by done. apply IH. by inversion H.
  - rewrite words_token by done. apply Forall_app in H. destruct H.
    constructor; auto.
Qed.

Lemma join_head ws :
  ws <> [] -> Forall good_token ws ->
  exists c x, join ws = c :: x /\ is_space c = false.
Proof.
  destruct ws as [|w ws]; [done|]. intros _ H. inversion H as [|? ? [Hw1 Hw2] _]; subst.
  destruct w as [|c w]; [done|]. inversion Hw2; subst.
  destruct ws; simpl; eauto.
Qed.

Lemma join_last ws :
  ws <> [] -> Forall good_token ws ->
  exists x c, join ws = x ++ [c] /\ is_space c = false.
Proof.
  induction ws as [|w ws IH]; [done|]. intros _ H.
  inversion H as [|? ? [Hw1 Hw2] Hws]; subst.
  destruct ws as [|w2 ws].
  - simpl. destruct (exists_last Hw1) as (x & c & ->).
    apply Forall_app in Hw2. destruct Hw2 as [_ Hc]. inversion Hc; subst. eauto.
  - destruct IH as (x & c & E & Hc); [done|done|].
    cbn [join] in *. rewrite E. exists (w ++ " "%char :: x), c.
    split; [|done]. by rewrite <- app_assoc.
Qed.

Lemma lstrip_spaces sp x :
  Forall (fun c => is_space c = true) sp -> lstrip (sp ++ x) = lstrip x.
Proof. induction 1 as [|c sp Hc _ IH]; [done|]. simpl. by rewrite Hc. Qed.

Lemma strip_join_spaces ws sp :
  Forall good_token ws -> Forall (fun c => is_space c = true) sp ->
  strip (join ws ++ sp) = join ws.
Proof.
  intros Hws Hsp. unfold strip, rstrip. destruct ws as [|w ws].
  - simpl. rewrite <- (app_nil_r sp), lstrip_spaces by done. done.
  - destruct (join_head (w :: ws)) as (c & x & E & Hc); [done|done|].
    destruct (join_last (w :: ws)) as (y & d & E' & Hd); [done|done|].
    assert (L : lstrip (join (w :: ws) ++ sp) = join (w :: ws) ++ sp).
    { rewrite E. simpl. by rewrite Hc. }
    rewrite L, rev_app_distr, lstrip_spaces by (by apply Forall_rev).
    rewrite E', rev_app_distr. simpl. rewrite Hd. simpl.
    by rewrite rev_involutive.
Qed.

Lemma strip_collapse s : strip (collapse false s) = join (words s).
Proof.
  destruct (collapse_words s) as (sp & Hsp & E).
  assert (L : lstrip (collapse false s) = lstrip (collapse true s)).
  { destruct s as [|c s]; [done|]. simpl. destruct (is_space c); done. }
  unfold strip. rewrite L, E. apply (strip_join_spaces (words s) sp); [|done].
  apply words_good.
Qed.

Lemma words_join ws : Forall good_token ws -> words (join ws) = ws.
Proof.
  induction 1 as [|w ws [Hw1 Hw2] Hws IH]; [done|].
  destruct ws as [|w2 ws].
  - simpl. pose proof (words_token w [] Hw1 Hw2 I) as E.
    by rewrite app_nil_r in E.
  - cbn [join]. rewrite words_token; [|done|done|exact eq_refl].
    f_equal. rewrite words_space by reflexivity. exact IH.
Qed.

(** ** The steps before the suffix removal *)

Lemma lstrip_Forall (P : ascii -> Prop) s : Forall P s -> Forall P (lstrip s).
Proof.
  induction 1 as [|c s Hc Hs IH]; [constructor|]. simpl.
  destruct (is_space c); [done|by constructor].
Qed.

Lemma strip_Forall (P : ascii -> Prop) s : Forall P s -> Forall P (strip s).
Proof.
  intros H. unfold strip, rstrip.
  apply Forall_rev, lstrip_Forall, Forall_rev, lstrip_Forall, H.
Qed.

Lemma replace_char_Forall (P : ascii -> Prop) c by_ s :
  Forall P by_ -> Forall P s -> Forall P (replace_char c by_ s).
Proof.
  intros Hby. induction 1 as [|x s Hx Hs IH]; [constructor|].
  unfold replace_char. cbn [flat_map]. apply Forall_app. split; [|exact IH].
  destruct (Ascii.eqb x c); [done|by constructor].
Qed.

Lemma replace_char_gone c by_ s :
  Forall (fun x => Ascii.eqb x c = false) by_ ->
  Forall (fun x => Ascii.eqb x c = false) (replace_char c by_ s).
Proof.
  intros Hby. induction s as [|x s IH]; [constructor|].
  unfold replace_char. cbn [flat_map]. apply Forall_app. split; [|exact IH].
  destruct (Ascii.eqb x c) eqn:E; [done|by constructor].
Qed.

Lemma replace_char_absent c by_ s :
  Forall (fun x => Ascii.eqb x c = false) s -> replace_char c by_ s = s.
Proof.
  induction 1 as [|x s Hx Hs IH]; [done|].
  unfold replace_char in *. cbn [flat_map]. rewrite Hx, IH. done.
Qed.

Lemma prepare_tidy s : Forall (fun c => tidy_char c = true) (prepare s).
Proof.
  unfold prepare.
  set (low := fun c => Ascii.eqb (lower_char c) c = true).
  assert (H1 : Forall low (strip (str_lower s))).
  { apply strip_Forall. unfold str_lower. apply Forall_map.
    apply Forall_forall. intros c _. unfold low. simpl.
    apply Ascii.eqb_eq, lower_char_idem. }
  assert (H2 : Forall low (symbols_to_words (strip (str_lower s)))).
  { unfold symbols_to_words.
    repeat (apply replace_char_Forall;
            [by repeat (constructor; [by vm_compute|])|]).
    exact H1. }
  assert (H3 : Forall (fun x => Ascii.eqb x "_" = false)
                 (symbols_to_words (strip (str_lower s)))).
  { unfold symbols_to_words. apply replace_char_gone.
    by repeat (constructor; [by vm_compute|]). }
  unfold blank_punctuation. apply Forall_map.
  rewrite Forall_forall in *. intros c Hc. simpl.
  destruct (char_table2 c) as (_ & T & _).
  unfold low in H2. rewrite (H2 c Hc), (H3 c Hc) in T. exact T.
Qed.

Lemma tidy_simple c : tidy_char c = true -> simple_char c = true.
Proof. unfold tidy_char. intros H. apply andb_true_iff in H. tauto. Qed.

(** ** A normalized name is a fixed point of the first steps *)

Lemma join_Forall (P : ascii -> Prop) ws :
  P " "%char -> Forall (Forall P) ws -> Forall P (join ws).
Proof.
  intros Hsp. induction 1 as [|w ws Hw Hws IH]; [constructor|].
  destruct ws as [|w2 ws]; [done|]. cbn [join].
  apply Forall_app. split; [done|]. by constructor.
Qed.

Lemma prepare_fixed x ws :
  x = join ws -> Forall good_token ws ->
  Forall (fun c => tidy_char c = true) x -> prepare x = x.
Proof.
  intros -> Hws Htidy. unfold prepare.
  assert (E1 : str_lower (join ws) = join ws).
  { unfold str_lower. rewrite <- (map_id (join ws)) at 2.
    apply map_ext_Forall. eapply Forall_impl; [exact Htidy|].
    intros c Hc. unfold tidy_char in Hc. apply andb_true_iff in Hc.
    destruct Hc as [_ Hc]. by apply Ascii.eqb_eq. }
  assert (E2 : strip (join ws) = join ws).
  { pose proof (strip_join_spaces ws [] Hws ltac:(constructor)) as E.
    by rewrite app_nil_r in E. }
  rewrite E1, E2.
  assert (Hno : forall c, tidy_char c = true ->
      Ascii.eqb c "&" = false /\ Ascii.eqb c "@" = false /\ Ascii.eqb c "+" = false
      /\ Ascii.eqb c "/" = false /\ Ascii.eqb c "-" = false /\ Ascii.eqb c "_" = false).
  { intros c Hc. apply tidy_simple in Hc. destruct (char_table2 c) as (T & _).
    rewrite Hc in T. simpl in T. apply negb_true_iff in T.
    repeat (apply orb_false_iff in T; destruct T as [T ?]). tauto. }
  assert (E3 : symbols_to_words (join ws) = join ws).
  { assert (Hab : forall c, In c (chars "&@+/-_") ->
               Forall (fun x => Ascii.eqb x c = false) (join ws)).
    { intros c Hin. eapply Forall_impl; [exact Htidy|]. intros x Hx. simpl.
      destruct (Hno x Hx) as (?&?&?&?&?&?).
      simpl in Hin. destruct Hin as [<-|[<-|[<-|[<-|[<-|[<-|[]]]]]]]; done. }
    unfold symbols_to_words.
    rewrite (replace_char_absent "&") by (apply Hab; simpl; tauto).
    rewrite (replace_char_absent "@") by (apply Hab; simpl; tauto).
    rewrite (replace_char_absent "+") by (apply Hab; simpl; tauto).
    rewrite (replace_char_absent "/") by (apply Hab; simpl; tauto).
    rewrite (replace_char_absent "-") by (apply Hab; simpl; tauto).
    apply replace_char_absent. apply Hab. simpl. tauto. }
  rewrite E3. unfold blank_punctuation.
  rewrite <- (map_id (join ws)) at 2.
  apply map_ext_Forall. eapply Forall_impl; [exact Htidy|].
  intros c Hc. simpl. apply tidy_simple in Hc.
  destruct (char_table2 c) as (_ & _ & T). rewrite Hc in T. simpl in T.
  by rewrite T.
Qed.

(** ** Normalization as a filter on words *)

Lemma filter_fold {A B} (f : B -> A -> bool) (ps : list B) (l : list A) :
  fold_left (fun ws p => List.filter (f p) ws) ps l
  = List.filter (fun t => forallb (fun p => f p t) ps) l.
Proof.
  revert l. induction ps as [|p ps IH]; intros l.
  - simpl. induction l as [|a l IHl]; [done|]. simpl. by f_equal.
  - cbn [fold_left]. rewrite IH. induction l as [|a l IHl]; [done|].
    cbn [List.filter forallb]. destruct (f p a); simpl.
    + destruct (forallb (fun p0 => f p0 a) ps); [by f_equal|done].
    + done.
Qed.

Lemma filter_filter {A} (f g : A -> bool) (l : list A) :
  List.filter g (List.filter f l) = List.filter (fun a => f a && g a) l.
Proof.
  induction l as [|a l IH]; [done|]. simpl.
  destruct (f a); simpl; [|done]. destruct (g a); [by f_equal|done].
Qed.

Lemma strip_suffixes_words ps x :
  forallb wf_suffix ps = true ->
  Forall (fun c => simple_char c = true) x ->
  let y := fold_left (fun acc p => re_sub (match_suffix p) (chars " ") acc) ps x in
  Forall (fun c => simple_char c = true) y
  /\ words y
     = fold_left (fun ws p => List.filter (no_match (match_suffix p)) ws) ps (words x).
Proof.
  revert x. induction ps as [|p ps IH]; intros x Hwf Hx; [done|].
  cbn [forallb] in Hwf. apply andb_true_iff in Hwf. destruct Hwf as [Hp Hps].
  cbn [fold_left]. cbv zeta.
  assert (Hy : Forall (fun c => simple_char c = true)
                 (re_sub (match_suffix p) (chars " ") x)).
  { apply re_sub_from_Forall; [|done]. by constructor. }
  destruct (IH _ Hps Hy) as [IH1 IH2]. split; [done|].
  cbv zeta in IH2. rewrite IH2. f_equal.
  unfold re_sub. apply re_sub_words; [by apply match_suffix_token| |done|by left].
  by constructor.
Qed.

Lemma normalize_text_words s :
  normalize_text s = join (List.filter survives (words (prepare s))).
Proof.
  unfold normalize_text. fold (prepare s).
  assert (Hx : Forall (fun c => simple_char c = true) (prepare s)).
  { eapply Forall_impl; [apply prepare_tidy|]. apply tidy_simple. }
  destruct (strip_suffixes_words COMPANY_SUFFIXES (prepare s) COMPANY_SUFFIXES_wf Hx)
    as [H1 H2].
  cbv zeta in H1, H2. fold (strip_suffixes (prepare s)) in H1, H2.
  destruct (re_sub_spaces_collapse
              (re_sub match_number [] (strip_suffixes (prepare s))) None) as [E _].
  unfold re_sub at 1. rewrite E, strip_collapse.
  unfold re_sub. rewrite re_sub_words;
    [|apply match_number_token|constructor|done|by left].
  rewrite H2, filter_fold, filter_filter. done.
Qed.

Lemma filter_Forall_id {A} (f : A -> bool) (l : list A) :
  List.filter f (List.filter f l) = List.filter f l.
Proof.
  rewrite filter_filter. induction l as [|a l IH]; [done|]. simpl.
  destruct (f a); simpl; by rewrite IH.
Qed.

Lemma filter_keeps_Forall {A} (P : A -> Prop) (f : A -> bool) (l : list A) :
  Forall P l -> Forall P (List.filter f l).
Proof.
  induction 1 as [|a l Ha Hl IH]; [constructor|]. simpl.
  destruct (f a); [by constructor|done].
Qed.

Lemma normalize_text_idempotent s :
  normalize_text (normalize_text s) = normalize_text s.
Proof.
  rewrite (normalize_text_words (normalize_text s)).
  rewrite (normalize_text_words s).
  set (ws := List.filter survives (words (prepare s))).
  assert (Hgood : Forall good_token ws)
    by apply filter_keeps_Forall, words_good.
  assert (Htidy : Forall (fun c => tidy_char c = true) (join ws)).
  { apply join_Forall; [by vm_compute|].
    apply filter_keeps_Forall, words_Forall, prepare_tidy. }
  rewrite (prepare_fixed (join ws) ws eq_refl Hgood Htidy).
  rewrite words_join by done. unfold ws. by rewrite filter_Forall_id.
Qed.

(** C2. Normalization is idempotent: normalizing a normalized name gives it
    back, for every input including [None] and the empty string. *)
Theorem normalize_company_name_idempotent (name : option string) :
  normalize_company_name (Some (normalize_company_name name))
  = normalize_company_name name.
Proof.
  destruct name as [[|c0 s0]|]; [done| |done].
  cbn [normalize_company_name].
  remember (string_of_list_ascii (normalize_text (chars (String c0 s0)))) as r eqn:E.
  assert (Hr : chars r = normalize_text (chars (String c0 s0))).
  { rewrite E. apply list_ascii_of_string_of_list_ascii. }
  destruct r as [|c1 r1]; [done|].
  by rewrite Hr, normalize_text_idempotent.
Qed.

Lemma Qltb_lt a b : Qltb a b = true <-> (a < b)%Q.
Proof.
  unfold Qltb. rewrite negb_true_iff. split.
  - intros H. apply Qnot_le_lt. intros Hle.
    apply Qle_bool_iff in Hle. congruence.
  - intros H. destruct (Qle_bool b a) eqn:E; [|done].
    apply Qle_bool_iff in E. exfalso. by apply (Qlt_not_le a b).
Qed.

Lemma Qltb_ge a b : Qltb a b = false <-> (b <= a)%Q.
Proof.
  unfold Qltb. rewrite negb_false_iff. apply Qle_bool_iff.
Qed.

Lemma nonempty_false s : nonempty s = false <-> s = "".
Proof. unfold nonempty. rewrite negb_false_iff. apply String.eqb_eq. Qed.

Lemma nonempty_true s : nonempty s = true <-> s <> "".
Proof. unfold nonempty. rewrite negb_true_iff. apply String.eqb_neq. Qed.

Lemma py_max_ge a b : (a <= py_max a b /\ b <= py_max a b)%Q.
Proof.
  unfold py_max. destruct (Qltb a b) eqn:E.
  - apply Qltb_lt in E. split; [by apply Qlt_le_weak|apply Qle_refl].
  - apply Qltb_ge in E. split; [apply Qle_refl|done].
Qed.

Lemma py_max_cases a b : py_max a b = a \/ py_max a b = b.
Proof. unfold py_max. destruct (Qltb a b); auto. Qed.

Section MatchingFacts.
Context {M : FuzzMetrics}.

Lemma calculate_similarity_range a b :
  metrics_in_range M -> (0 <= calculate_similarity a b <= 100)%Q.
Proof.
  intros (H1 & H2 & H3 & H4). unfold calculate_similarity.
  destruct (negb (nonempty a) || negb (nonempty b)); [done|].
  destruct (py_max_cases (py_max (py_max (ratio a b) (partial_ratio a b))
                            (token_sort_ratio a b)) (token_set_ratio a b)) as [->| ->];
    [|apply H4].
  destruct (py_max_cases (py_max (ratio a b) (partial_ratio a b))
              (token_sort_ratio a b)) as [->| ->]; [|apply H3].
  destruct (py_max_cases (ratio a b) (partial_ratio a b)) as [->| ->];
    [apply H1|apply H2].
Qed.

Lemma calculate_similarity_empty_l b : calculate_similarity "" b = 0%Q.
Proof. done. Qed.

Lemma calculate_similarity_empty_r a : calculate_similarity a "" = 0%Q.
Proof. unfold calculate_similarity. by rewrite orb_true_r. Qed.

(** The scan returns either its initial pair, when no candidate beats the
    initial score, or the first candidate reaching the final score. *)
Lemma best_scan_spec query candidates :
  forall best_match best_score e s,
    best_scan query candidates best_match best_score = (e, s) ->
    (best_score <= s)%Q
    /\ Forall (fun c => (calculate_similarity query (fst c) <= s)%Q) candidates
    /\ ((e = best_match /\ s = best_score)
        \/ exists l1 n b l2,
             candidates = l1 ++ (n, b) :: l2 /\ e = Some b
             /\ s = calculate_similarity query n /\ (best_score < s)%Q
             /\ Forall (fun c => (calculate_similarity query (fst c) < s)%Q) l1).
Proof.
  induction candidates as [|[n b] rest IH]; intros bm bs e s Hscan.
  - simpl in Hscan. inversion Hscan; subst.
    split; [apply Qle_refl|]. split; [constructor|]. by left.
  - cbn [best_scan] in Hscan.
    destruct (Qltb bs (calculate_similarity query n)) eqn:E.
    + apply Qltb_lt in E.
      destruct (IH _ _ _ _ Hscan) as (Hle & Hall & Hcase).
      split; [apply Qlt_le_weak; by eapply Qlt_le_trans|].
      split; [by constructor|]. right.
      destruct Hcase as [[-> ->]|(l1 & n' & b' & l2 & -> & -> & -> & Hlt & Hl1)].
      * exists [], n, b, rest. repeat split; done.
      * exists ((n, b) :: l1), n', b', l2. repeat split; try done.
        -- by eapply Qlt_trans.
        -- by constructor.
    + apply Qltb_ge in E.
      destruct (IH _ _ _ _ Hscan) as (Hle & Hall & Hcase).
      split; [done|].
      split; [constructor; [by eapply Qle_trans|done]|].
      destruct Hcase as [[-> ->]|(l1 & n' & b' & l2 & -> & -> & -> & Hlt & Hl1)].
      * by left.
      * right. exists ((n, b) :: l1), n', b', l2. repeat split; try done.
        constructor; [|done]. by eapply Qle_lt_trans.
Qed.

(** With the default [normalized_candidates] the indexed scan never
    raises and is the plain scan. *)
Lemma best_scan_at_default query pre candidates best_match best_score :
  best_scan_at query (map fst (pre ++ candidates)) (length pre) candidates
    best_match best_score
  = Some (best_scan query candidates best_match best_score).
Proof.
  revert pre best_match best_score.
  induction candidates as [|[n b] rest IH]; intros pre bm bs; [done|].
  cbn [best_scan_at best_scan].
  assert (L : map fst (pre ++ (n, b) :: rest) !! length pre = Some n).
  { rewrite map_app. rewrite lookup_app_r by (by rewrite length_map).
    by rewrite length_map, Nat.sub_diag. }
  rewrite L.
  specialize (IH (pre ++ [(n, b)])). rewrite <- app_assoc in IH.
  rewrite length_app in IH. simpl in IH. rewrite Nat.add_1_r in IH.
  destruct (Qltb bs (calculate_similarity query n)); apply IH.
Qed.

Lemma find_best_match_with_default fm query candidates :
  find_best_match_with fm query candidates None
  = Some (find_best_match fm query candidates).
Proof.
  unfold find_best_match_with, find_best_match.
  destruct (negb (nonempty query) || _); [done|].
  pose proof (best_scan_at_default query [] candidates None 0%Q) as E.
  cbn [app length] in E. rewrite E.
  by destruct (best_scan query candidates None 0%Q).
Qed.

Lemma find_best_match_empty fm query candidates :
  query = "" \/ candidates = [] ->
  find_best_match fm query candidates = (None, 0%Q, reject).
Proof.
  intros [-> | ->]; unfold find_best_match; [done|].
  by rewrite orb_true_r.
Qed.

Lemma find_best_match_scan fm query candidates :
  query <> "" -> candidates <> [] ->
  find_best_match fm query candidates
  = (fst (best_scan query candidates None 0%Q),
     snd (best_scan query candidates None 0%Q),
     classify fm (snd (best_scan query candidates None 0%Q))).
Proof.
  intros Hq Hc. unfold find_best_match.
  apply nonempty_true in Hq. rewrite Hq. destruct candidates; [done|].
  simpl negb. cbn [orb].
  by destruct (best_scan query (p :: candidates) None 0%Q).
Qed.
End MatchingFacts.

Lemma exact_metrics_in_range : metrics_in_range exact_metrics.
Proof.
  assert (H : metric_in_range exact_metric).
  { intros a b. unfold exact_metric. by destruct (String.eqb a b). }
  unfold metrics_in_range. simpl. repeat split; apply H.
Qed.

(** C1 (as amended). [find_best_match] returns [(None, 0, reject)] for an
    empty query or candidate list.  Otherwise the score is the maximum of
    the candidates' scores and the disposition is its classification; the
    entity is the first candidate reaching that maximum when the maximum is
    positive, and null, with score 0, when no candidate scores above 0. *)
Theorem find_best_match_first_positive_max {M : FuzzMetrics} fm query
    (candidates : list (string * Brand)) e s d :
  metrics_in_range M ->
  find_best_match fm query candidates = (e, s, d) ->
  (query = "" \/ candidates = [] -> e = None /\ s = 0%Q /\ d = reject)
  /\ (query <> "" -> candidates <> [] ->
      d = classify fm s
      /\ Forall (fun c => (calculate_similarity query (fst c) <= s)%Q) candidates
      /\ Exists (fun c => (calculate_similarity query (fst c) == s)%Q) candidates
      /\ match e with
         | Some b =>
             exists l1 n l2,
               candidates = l1 ++ (n, b) :: l2
               /\ calculate_similarity query n = s /\ (0 < s)%Q
               /\ Forall (fun c => (calculate_similarity query (fst c) < s)%Q) l1
         | None => s = 0%Q
         end).
Proof.
  intros Hrange Hres. split.
  - intros Hempty. rewrite (find_best_match_empty fm _ _ Hempty) in Hres.
    by inversion Hres.
  - intros Hq Hc. rewrite (find_best_match_scan fm _ _ Hq Hc) in Hres.
    destruct (best_scan query candidates None 0%Q) as [e' s'] eqn:Escan.
    simpl in Hres. inversion Hres; subst. clear Hres.
    destruct (best_scan_spec _ _ _ _ _ _ Escan) as (_ & Hall & Hcase).
    split; [done|]. split; [done|].
    destruct Hcase as [[-> ->]|(l1 & n & b & l2 & -> & -> & -> & Hlt & Hl1)].
    + split; [|done]. destruct candidates as [|c rest]; [done|].
      apply Exists_cons. left. inversion Hall; subst.
      apply Qle_antisym; [done|]. by apply calculate_similarity_range.
    + split.
      * apply Exists_app. right. apply Exists_cons. left. simpl. apply Qeq_refl.
      * exists l1, n, l2. done.
Qed.

Lemma find_best_match_first_positive_max_witness :
  metrics_in_range exact_metrics
  /\ find_best_match (M := exact_metrics) default_matcher "acme" sample_brands
     = (Some acme_brand, 100%Q, auto_accept)
  /\ exists l1 n l2,
       sample_brands = l1 ++ (n, acme_brand) :: l2
       /\ calculate_similarity (M := exact_metrics) "acme" n = 100%Q
       /\ (0 < 100)%Q
       /\ Forall (fun c => (calculate_similarity (M := exact_metrics) "acme" (fst c)
                            < 100)%Q) l1.
Proof.
  split; [exact exact_metrics_in_range|]. split; [reflexivity|].
  apply (find_best_match_first_positive_max (M := exact_metrics) default_matcher
           "acme" sample_brands (Some acme_brand) 100%Q auto_accept
           exact_metrics_in_range eq_refl); [discriminate|discriminate].
Defined.

(** C1, as stated, fails: the only candidate has an empty normalized name,
    scores 0, and is not returned. *)
Lemma first_max_entity_counterexample :
  ~ first_max_entity_claim (M := exact_metrics) default_matcher "acme"
      [(normalize_company_name (Some "Inc."), unnamed_brand)].
Proof.
  intros H. destruct H as (l1 & n & b & l2 & _ & Hres & _); [done|done|].
  change (find_best_match (M := exact_metrics) default_matcher "acme"
            [(normalize_company_name (Some "Inc."), unnamed_brand)])
    with (@None Brand, 0%Q, reject) in Hres.
  discriminate.
Qed.

(** C4 (as amended). The entity is null exactly when no candidate scores
    above 0, which includes the empty query and the empty candidate list;
    a null entity comes with score 0, and with disposition reject when
    both thresholds are positive. *)
Theorem find_best_match_null_entity {M : FuzzMetrics} fm query
    (candidates : list (string * Brand)) e s d :
  find_best_match fm query candidates = (e, s, d) ->
  (e = None
   <-> Forall (fun c => ~ (0 < calculate_similarity query (fst c))%Q) candidates)
  /\ (e = None -> s = 0%Q)
  /\ (e = None -> (0 < manual_review_threshold fm)%Q ->
      (0 < auto_accept_threshold fm)%Q -> d = reject)
  /\ (query = "" \/ candidates = [] -> e = None /\ d = reject).
Proof.
  intros Hres.
  assert (Hcls : (0 < manual_review_threshold fm)%Q ->
                 (0 < auto_accept_threshold fm)%Q -> classify fm 0%Q = reject).
  { intros H1 H2. unfold classify.
    destruct (Qle_bool (auto_accept_threshold fm) 0) eqn:E1.
    { apply Qle_bool_iff in E1. exfalso. by apply (Qlt_not_le _ _ H2). }
    destruct (Qle_bool (manual_review_threshold fm) 0) eqn:E2; [|done].
    apply Qle_bool_iff in E2. exfalso. by apply (Qlt_not_le _ _ H1). }
  destruct (String.eqb_spec query "") as [Hq|Hq].
  { rewrite (find_best_match_empty fm _ _ (or_introl Hq)) in Hres.
    inversion Hres; subst. repeat split; try done.
    intros _. apply Forall_forall. intros c _.
    rewrite calculate_similarity_empty_l. apply Qlt_irrefl. }
  destruct candidates as [|c0 rest].
  { rewrite (find_best_match_empty fm _ _ (or_intror eq_refl)) in Hres.
    inversion Hres; subst. repeat split; done. }
  assert (Hne : c0 :: rest <> []) by done.
  rewrite (find_best_match_scan fm _ _ Hq Hne) in Hres.
  destruct (best_scan query (c0 :: rest) None 0%Q) as [e' s'] eqn:Escan.
  simpl in Hres. inversion Hres; subst. clear Hres.
  destruct (best_scan_spec _ _ _ _ _ _ Escan) as (_ & Hall & Hcase).
  destruct Hcase as [[-> ->]|(l1 & n & b & l2 & Hc & -> & -> & Hlt & Hl1)].
  - split; [split; [|done]|].
    { intros _. eapply Forall_impl; [exact Hall|]. intros c Hc. simpl in Hc.
      by apply Qle_not_lt. }
    split; [done|]. split; [intros _ H1 H2; by apply Hcls|].
    intros [|]; done.
  - split; [split; [done|]|].
    { intros Hf. exfalso. rewrite Hc in Hf. apply Forall_app in Hf.
      destruct Hf as [_ Hf]. inversion Hf; subst. done. }
    split; [done|]. split; [done|]. intros [|]; done.
Qed.

Lemma find_best_match_null_entity_witness :
  find_best_match (M := exact_metrics) default_matcher "zenith" sample_brands
  = (None, 0%Q, reject)
  /\ Forall (fun c => ~ (0 < calculate_similarity (M := exact_metrics) "zenith" (fst c))%Q)
       sample_brands.
Proof.
  split; [reflexivity|].
  apply (find_best_match_null_entity (M := exact_metrics) default_matcher
           "zenith" sample_brands None 0%Q reject eq_refl).
  reflexivity.
Defined.

(** C4, as stated, fails: a non-empty query against a non-empty candidate
    list gives a null entity when no candidate scores above 0. *)
Lemma null_iff_no_candidates_counterexample :
  ~ null_iff_no_candidates_claim (M := exact_metrics) default_matcher "zenith"
      [(normalize_company_name (Some "Holdings Ltd."), mkBrand "b7" "Holdings Ltd.")].
Proof.
  intros [H _]. destruct (H eq_refl); discriminate.
Qed.


Section PipelineFacts.
Context {M : FuzzMetrics}.

Lemma resolve_child_frame cfg brands parent_name parent row u matched u' matched' :
  resolve_child cfg brands parent_name parent (u, matched) row = (u', matched') ->
  firebase_client u' = firebase_client u /\ stats u' = stats u
  /\ exists items,
       Forall (fun i => item_type i = "subsidiary") items
       /\ manual_review_queue u' = manual_review_queue u ++ items.
Proof.
  unfold resolve_child.
  destruct (find_best_match _ _ _) as [[sub_match sub_score] sub_status].
  destruct sub_status; destruct sub_match as [sub|]; intros H;
    pose proof (f_equal fst H) as H1; cbn [fst] in H1; clear H; subst u';
    cbn [firebase_client stats manual_review_queue add_unmatched enqueue];
    (split; [reflexivity|]); (split; [reflexivity|]).
  all: try (exists []; split; [constructor|by rewrite app_nil_r]).
  eexists [_]. split; [|reflexivity]. constructor; [reflexivity|constructor].
Qed.
End PipelineFacts.

(** C3 (code defect). The dotted suffixes are never removed: the dots are
    blanked before the suffix patterns run, so the patterns with a literal
    dot cannot match and the letters of the suffix stay in the name. *)
Theorem normalize_dotted_suffix_residue :
  normalize_company_name (Some "Nestle S.A.") = "nestle s a"
  /\ normalize_company_name (Some "Blackstone L.P.") = "blackstone l p"
  /\ normalize_company_name (Some "Nestle SA") = "nestle".
Proof. repeat split; vm_compute; reflexivity. Qed.

(** C6 (code defect). Accepting a [subsidiary_parent] item reports the item
    as processed, so that it is dropped from the remaining list, without
    calling the client at all: the group's links are never written. *)
Theorem accept_group_item_writes_nothing parent_name normalized parent_brand
    score subsidiary_rows top_matches fs dry_run :
  process_review_item
    (SubsidiaryParentReview parent_name normalized parent_brand score
       subsidiary_rows top_matches) "a" fs dry_run
  = (true, fs).
Proof. reflexivity. Qed.

(** C8 (code defect). A run in which the parent's subsidiary-set merge
    raises: the failure is logged by the client but the error counter
    stays at 0, and the run goes on to write the child's parent
    reference. *)
Theorem parent_merge_failure_not_counted :
  let u := run_upload (M := exact_metrics) (default_config false) [] [acme_zeta_row]
             sample_brands (mkFirestore sample_docs [true] []) in
  calls (firebase_client u)
  = [ (SetSubsidiaries "b1" ["b2"], false);
      (SetParentInfo "b2" (Some "Acme Inc.") (Some "b1"), true) ]
  /\ stats u !! "errors" = Some 0
  /\ stats u !! "subsidiaries_matched" = Some 1
  /\ manual_review_queue u = []
  /\ unmatched_companies u = [].
Proof. vm_compute. repeat split; reflexivity. Qed.

Lemma remote_update_log fs c key change :
  calls (snd (remote_update fs c key change))
  = calls fs ++ [(c, fst (remote_update fs c key change))].
Proof.
  unfold remote_update.
  destruct (match faults fs with b :: _ => b | [] => false end); [done|].
  by destruct (docs fs !! key).
Qed.

Lemma remote_update_outcome fs c key change :
  logs_outcome fs (remote_update fs c key change).
Proof.
  exists [(c, fst (remote_update fs c key change))].
  split; [apply remote_update_log|]. intros H. by inversion H.
Qed.

Lemma update_brand_social_outcome fs brand updates :
  logs_outcome fs (update_brand_social fs brand updates false).
Proof. apply remote_update_outcome. Qed.

Lemma update_parent_subsidiaries_outcome fs parent ids :
  logs_outcome fs (update_parent_subsidiaries fs parent ids false).
Proof. apply remote_update_outcome. Qed.

Lemma update_brand_parent_info_outcome fs brand company parent :
  logs_outcome fs (update_brand_parent_info fs brand company parent false).
Proof.
  unfold update_brand_parent_info.
  destruct company, parent; try apply remote_update_outcome.
  exists []. split; [by rewrite app_nil_r|done].
Qed.

Lemma inv_pure n c1 u1 u2 (f : Uploader -> Uploader) :
  (forall u, firebase_client (f u) = firebase_client u) ->
  (forall v1 v2, same_outputs v1 v2 -> same_outputs (f v1) (f v2)) ->
  dry_wet_inv n c1 u1 u2 -> dry_wet_inv n c1 (f u1) (f u2).
Proof.
  intros Hc Ho (H1 & H2 & H3). unfold dry_wet_inv. rewrite !Hc.
  split; [done|]. split; [done|]. intros H. apply Ho. by apply H3.
Qed.

Lemma inv_bump n c1 u1 u2 key k :
  dry_wet_inv n c1 u1 u2 -> dry_wet_inv n c1 (bump key k u1) (bump key k u2).
Proof.
  apply (inv_pure n c1 u1 u2 (bump key k)); [done|].
  intros v1 v2 (E1 & E2 & E3). unfold same_outputs. simpl. by rewrite E1, E2, E3.
Qed.

Lemma inv_enqueue n c1 u1 u2 item :
  dry_wet_inv n c1 u1 u2 -> dry_wet_inv n c1 (enqueue item u1) (enqueue item u2).
Proof.
  apply (inv_pure n c1 u1 u2 (enqueue item)); [done|].
  intros v1 v2 (E1 & E2 & E3). unfold same_outputs. simpl. by rewrite E1, E2, E3.
Qed.

Lemma inv_add_unmatched n c1 u1 u2 r :
  dry_wet_inv n c1 u1 u2 ->
  dry_wet_inv n c1 (add_unmatched r u1) (add_unmatched r u2).
Proof.
  apply (inv_pure n c1 u1 u2 (add_unmatched r)); [done|].
  intros v1 v2 (E1 & E2 & E3). unfold same_outputs. simpl. by rewrite E1, E2, E3.
Qed.

(** A real client call against a dry one that is skipped: the relation is
    kept, since a failed call leaves an entry in the log. *)
Lemma inv_call n c1 u1 u2 (r : bool * Firestore) :
  logs_outcome (firebase_client u2) r ->
  dry_wet_inv n c1 u1 u2 ->
  dry_wet_inv n c1 (with_client (firebase_client u1) u1)
    (if fst r then with_client (snd r) u2 else bump "errors" 1 (with_client (snd r) u2)).
Proof.
  intros (new & Hlog & Hok) (H1 & H2 & H3).
  assert (Hlen : n <= length (calls (snd r))) by (rewrite Hlog, length_app; lia).
  assert (Hdrop : drop n (calls (snd r)) = drop n (calls (firebase_client u2)) ++ new).
  { rewrite Hlog. by rewrite drop_app_le. }
  unfold dry_wet_inv. split; [done|].
  destruct (fst r) eqn:E; cbn [firebase_client with_client bump].
  - split; [done|]. intros Hs. rewrite Hdrop in Hs. apply Forall_app in Hs.
    destruct Hs as [Hs _]. destruct (H3 Hs) as (E1 & E2 & E3). by repeat split.
  - split; [done|]. intros Hs. rewrite Hdrop in Hs. apply Forall_app in Hs.
    destruct Hs as [_ Hs]. specialize (Hok Hs). congruence.
Qed.

Section DryRun.
Context {M : FuzzMetrics}.
Variables (fm : FuzzyMatcher) (only : option string).

Let dry := mkConfig fm true only.
Let wet := mkConfig fm false only.

Lemma inv_upload_contact n c1 u1 u2 brand contact :
  dry_wet_inv n c1 u1 u2 ->
  dry_wet_inv n c1 (_upload_contact_info dry brand contact u1)
    (_upload_contact_info wet brand contact u2).
Proof.
  intros Hinv. unfold _upload_contact_info.
  destruct (decide (social_updates_of contact = ∅)); [done|].
  cbn [dry_run dry wet update_brand_social].
  pose proof (inv_call n c1 u1 u2 _
                (update_brand_social_outcome (firebase_client u2) brand
                   (social_updates_of contact)) Hinv) as H.
  unfold update_brand_social in H.
  by destruct (remote_update _ _ _ _) as [ok fs'].
Qed.

Lemma inv_children n c1 parent_id parent_name
    (matched : list (string * Brand * Q)) :
  forall u1 u2,
    dry_wet_inv n c1 u1 u2 ->
    dry_wet_inv n c1
      (fold_left
         (fun u m =>
            let '(sub_success, fs) :=
              update_brand_parent_info (firebase_client u) (fst (fst m))
                (Some parent_name) (Some parent_id) (dry_run dry) in
            let u := with_client fs u in
            if sub_success then u else bump "errors" 1 u) matched u1)
      (fold_left
         (fun u m =>
            let '(sub_success, fs) :=
              update_brand_parent_info (firebase_client u) (fst (fst m))
                (Some parent_name) (Some parent_id) (dry_run wet) in
            let u := with_client fs u in
            if sub_success then u else bump "errors" 1 u) matched u2).
Proof.
  induction matched as [|m matched IH]; intros u1 u2 Hinv; [done|].
  cbn [fold_left]. apply IH.
  cbn [dry_run dry wet].
  pose proof (inv_call n c1 u1 u2 _
                (update_brand_parent_info_outcome (firebase_client u2) (fst (fst m))
                   (Some parent_name) (Some parent_id)) Hinv) as H.
  change (update_brand_parent_info (firebase_client u1) (fst (fst m))
            (Some parent_name) (Some parent_id) true)
    with (true, firebase_client u1).
  by destruct (update_brand_parent_info (firebase_client u2) _ _ _ false) as [ok fs'].
Qed.

Lemma inv_upload_subsidiary n c1 u1 u2 parent_id parent_name matched :
  dry_wet_inv n c1 u1 u2 ->
  dry_wet_inv n c1 (_upload_subsidiary_info dry parent_id parent_name matched u1)
    (_upload_subsidiary_info wet parent_id parent_name matched u2).
Proof.
  intros (H1 & H2 & H3). unfold _upload_subsidiary_info.
  cbn [dry_run dry wet]. cbn [update_parent_subsidiaries].
  destruct (update_parent_subsidiaries_outcome (firebase_client u2) parent_id
              (map (fun m => fst (fst m)) matched)) as (new & Hlog & _).
  unfold update_parent_subsidiaries in Hlog.
  destruct (remote_update _ _ _ _) as [ok fs'].
  apply inv_children. cbn [snd] in Hlog.
  unfold dry_wet_inv. cbn [firebase_client with_client].
  split; [done|]. split; [rewrite Hlog, length_app; lia|].
  intros Hs. rewrite Hlog, drop_app_le in Hs by done.
  apply Forall_app in Hs. destruct Hs as [Hs _].
  destruct (H3 Hs) as (E1 & E2 & E3). by repeat split.
Qed.

Lemma inv_process_contact n c1 brands contact u1 u2 :
  dry_wet_inv n c1 u1 u2 ->
  dry_wet_inv n c1 (process_contact dry brands u1 contact)
    (process_contact wet brands u2 contact).
Proof.
  intros Hinv. unfold process_contact.
  change (filtered_out dry) with (filtered_out wet).
  destruct (filtered_out wet _); [done|].
  destruct (negb (nonempty _)); [done|].
  cbn [fuzzy_matcher dry wet].
  destruct (find_best_match fm _ brands) as [[best_match score] status].
  destruct status; destruct best_match as [brand|].
  - apply inv_upload_contact. by do 3 apply inv_bump.
  - apply inv_add_unmatched. by do 2 apply inv_bump.
  - apply inv_enqueue. by do 2 apply inv_bump.
  - apply inv_add_unmatched. by do 2 apply inv_bump.
  - apply inv_add_unmatched. by do 2 apply inv_bump.
  - apply inv_add_unmatched. by do 2 apply inv_bump.
Qed.

Lemma inv_resolve_child n c1 brands parent_name parent row u1 u2 matched :
  dry_wet_inv n c1 u1 u2 ->
  dry_wet_inv n c1
    (fst (resolve_child dry brands parent_name parent (u1, matched) row))
    (fst (resolve_child wet brands parent_name parent (u2, matched) row))
  /\ snd (resolve_child dry brands parent_name parent (u1, matched) row)
     = snd (resolve_child wet brands parent_name parent (u2, matched) row).
Proof.
  intros Hinv. unfold resolve_child. cbn [fuzzy_matcher dry wet].
  destruct (find_best_match fm _ brands) as [[sub_match sub_score] sub_status].
  destruct sub_status; destruct sub_match as [sub|]; cbn [fst snd];
    (split; [|reflexivity]); try done.
  all: try by apply inv_add_unmatched.
  by apply inv_enqueue.
Qed.

Lemma inv_resolve_children n c1 brands parent_name parent rows :
  forall u1 u2 matched,
    dry_wet_inv n c1 u1 u2 ->
    dry_wet_inv n c1
      (fst (fold_left (resolve_child dry brands parent_name parent) rows (u1, matched)))
      (fst (fold_left (resolve_child wet brands parent_name parent) rows (u2, matched)))
    /\ snd (fold_left (resolve_child dry brands parent_name parent) rows (u1, matched))
       = snd (fold_left (resolve_child wet brands parent_name parent) rows (u2, matched)).
Proof.
  induction rows as [|row rows IH]; intros u1 u2 matched Hinv; [done|].
  cbn [fold_left].
  destruct (inv_resolve_child n c1 brands parent_name parent row u1 u2 matched Hinv)
    as [Hi Hm].
  destruct (resolve_child dry brands parent_name parent (u1, matched) row) as [v1 m1].
  destruct (resolve_child wet brands parent_name parent (u2, matched) row) as [v2 m2].
  cbn [fst snd] in Hi, Hm. subst m2. by apply IH.
Qed.

Lemma inv_process_parent_group n c1 brands group u1 u2 :
  dry_wet_inv n c1 u1 u2 ->
  dry_wet_inv n c1 (process_parent_group dry brands u1 group)
    (process_parent_group wet brands u2 group).
Proof.
  intros Hinv. destruct group as [parent_name subs_list].
  unfold process_parent_group.
  change (filtered_out dry) with (filtered_out wet).
  destruct (filtered_out wet _); [done|].
  cbn [fuzzy_matcher dry wet].
  destruct (find_best_match fm _ brands) as [[parent_match parent_score] status].
  assert (Hrej : dry_wet_inv n c1
            (add_unmatched
               (mkUnmatched "subsidiary_parent" parent_name None
                  (normalize_company_name (Some parent_name)) parent_score)
               (bump "subsidiaries_rejected" 1 (bump "subsidiaries_processed" 1 u1)))
            (add_unmatched
               (mkUnmatched "subsidiary_parent" parent_name None
                  (normalize_company_name (Some parent_name)) parent_score)
               (bump "subsidiaries_rejected" 1 (bump "subsidiaries_processed" 1 u2)))).
  { apply inv_add_unmatched. by do 2 apply inv_bump. }
  destruct parent_match as [parent|]; [|by destruct status].
  destruct status; [| |done].
  - destruct (inv_resolve_children n c1 brands parent_name parent subs_list
                (bump "subsidiaries_processed" 1 u1)
                (bump "subsidiaries_processed" 1 u2) []
                (inv_bump _ _ _ _ _ _ Hinv)) as [Hi Hm].
    destruct (fold_left (resolve_child dry _ _ _) _ _) as [v1 m1].
    destruct (fold_left (resolve_child wet _ _ _) _ _) as [v2 m2].
    cbn [fst snd] in Hi, Hm. subst m2. destruct m1 as [|m m1]; [done|].
    apply inv_upload_subsidiary. by do 2 apply inv_bump.
  - destruct (inv_resolve_children n c1 brands parent_name parent subs_list
                (bump "subsidiaries_processed" 1 u1)
                (bump "subsidiaries_processed" 1 u2) []
                (inv_bump _ _ _ _ _ _ Hinv)) as [Hi Hm].
    destruct (fold_left (resolve_child dry _ _ _) _ _) as [v1 m1].
    destruct (fold_left (resolve_child wet _ _ _) _ _) as [v2 m2].
    cbn [fst snd] in Hi, Hm. subst m2.
    apply inv_enqueue. by apply inv_bump.
Qed.

Lemma inv_fold {A} (f g : Uploader -> A -> Uploader) n c1 (l : list A) :
  (forall x u1 u2, dry_wet_inv n c1 u1 u2 -> dry_wet_inv n c1 (f u1 x) (g u2 x)) ->
  forall u1 u2, dry_wet_inv n c1 u1 u2 ->
                dry_wet_inv n c1 (fold_left f l u1) (fold_left g l u2).
Proof.
  intros Hstep. induction l as [|x l IH]; intros u1 u2 Hinv; [done|].
  cbn [fold_left]. apply IH. by apply Hstep.
Qed.

Lemma inv_run_upload contacts subsidiaries brands client_dry client_wet :
  dry_wet_inv (length (calls client_wet)) client_dry
    (run_upload dry contacts subsidiaries brands client_dry)
    (run_upload wet contacts subsidiaries brands client_wet).
Proof.
  unfold run_upload, process_subsidiaries, process_contacts.
  apply inv_fold; [intros; by apply inv_process_parent_group|].
  apply inv_fold; [intros; by apply inv_process_contact|].
  unfold dry_wet_inv, new_uploader. cbn [firebase_client].
  split; [done|]. split; [done|]. intros _. by repeat split.
Qed.
End DryRun.

(** C9. A dry-run client method reports success and leaves the client as it
    was, so a dry run never touches the database; and if every call logged
    by a real run on the same inputs succeeded, the two runs end with the
    same statistics, review queue and unmatched list. *)
Theorem dry_run_noninterference {M : FuzzMetrics} fm only contacts subsidiaries
    brands client_dry client_wet :
  (forall fs brand updates, update_brand_social fs brand updates true = (true, fs))
  /\ (forall fs parent ids, update_parent_subsidiaries fs parent ids true = (true, fs))
  /\ (forall fs brand company parent,
        update_brand_parent_info fs brand company parent true = (true, fs))
  /\ firebase_client
       (run_upload (mkConfig fm true only) contacts subsidiaries brands client_dry)
     = client_dry
  /\ (all_succeeded
        (drop (length (calls client_wet))
           (calls (firebase_client
                     (run_upload (mkConfig fm false only) contacts subsidiaries
                        brands client_wet)))) ->
      same_outputs
        (run_upload (mkConfig fm true only) contacts subsidiaries brands client_dry)
        (run_upload (mkConfig fm false only) contacts subsidiaries brands client_wet)).
Proof.
  split; [done|]. split; [done|]. split; [done|].
  destruct (inv_run_upload fm only contacts subsidiaries brands client_dry client_wet)
    as (H1 & _ & H3).
  split; [exact H1|exact H3].
Qed.

Lemma dry_run_noninterference_witness :
  all_succeeded
    (calls (firebase_client
              (run_upload (M := exact_metrics) (default_config false) [acme_contact]
                 [acme_zeta_row] sample_brands (mkFirestore sample_docs [] []))))
  /\ same_outputs
       (run_upload (M := exact_metrics) (default_config true) [acme_contact]
          [acme_zeta_row] sample_brands (mkFirestore sample_docs [] []))
       (run_upload (M := exact_metrics) (default_config false) [acme_contact]
          [acme_zeta_row] sample_brands (mkFirestore sample_docs [] [])).
Proof.
  assert (Hok : all_succeeded
    (calls (firebase_client
              (run_upload (M := exact_metrics) (default_config false) [acme_contact]
                 [acme_zeta_row] sample_brands (mkFirestore sample_docs [] []))))).
  { vm_compute. repeat constructor. }
  split; [exact Hok|].
  apply (dry_run_noninterference (M := exact_metrics) default_matcher None
           [acme_contact] [acme_zeta_row] sample_brands
           (mkFirestore sample_docs [] []) (mkFirestore sample_docs [] [])).
  exact Hok.
Defined.

Section NullMatch.
Context {M : FuzzMetrics}.







End NullMatch.





Lemma read_choice_valid inputs :
  forall choice rest,
    read_choice inputs = Some (choice, rest) ->
    choice = "q" \/ choice = "a" \/ choice = "r" \/ choice = "s".
Proof.
  induction inputs as [|line inputs IH]; intros choice rest H; [discriminate|].
  cbn [read_choice] in H.
  destruct (String.eqb (py_lower (py_strip line)) "q"
            || String.eqb (py_lower (py_strip line)) "a"
            || String.eqb (py_lower (py_strip line)) "r"
            || String.eqb (py_lower (py_strip line)) "s") eqn:E.
  - inversion H; subst. rewrite !orb_true_iff, !String.eqb_eq in E.
    destruct E as [[[E|E]|E]|E]; auto.
  - eauto.
Qed.

Lemma all_succeeded_no_failed_social log :
  all_succeeded log -> List.filter failed_social log = [].
Proof.
  induction 1 as [|[c b] log Hb _ IH]; [reflexivity|].
  cbn [snd] in Hb. subst b. cbn [List.filter failed_social].
  destruct c; exact IH.
Qed.

Lemma update_brand_social_trace fs brand updates dry_run :
  exists log,
    calls (snd (update_brand_social fs brand updates dry_run)) = calls fs ++ log
    /\ length (List.filter failed_social log)
       = (if fst (update_brand_social fs brand updates dry_run) then 0 else 1)
    /\ (dry_run = true -> log = []).
Proof.
  destruct dry_run.
  - exists []. split; [by rewrite app_nil_r|]. split; reflexivity.
  - unfold update_brand_social.
    eexists [_].
    split; [apply remote_update_log|]. split; [|discriminate].
    by destruct (fst (remote_update _ _ _ _)).
Qed.

Lemma update_parent_subsidiaries_trace fs parent ids dry_run :
  exists log,
    calls (snd (update_parent_subsidiaries fs parent ids dry_run)) = calls fs ++ log
    /\ List.filter failed_social log = []
    /\ (dry_run = true -> log = []).
Proof.
  destruct dry_run.
  - exists []. split; [by rewrite app_nil_r|]. split; reflexivity.
  - unfold update_parent_subsidiaries. eexists [_].
    split; [apply remote_update_log|]. split; [|discriminate].
    reflexivity.
Qed.

Lemma update_brand_parent_info_trace fs brand company parent dry_run :
  exists log,
    calls (snd (update_brand_parent_info fs brand (Some company) (Some parent) dry_run))
    = calls fs ++ log
    /\ List.filter failed_social log = []
    /\ (dry_run = true -> log = []).
Proof.
  destruct dry_run.
  - exists []. split; [by rewrite app_nil_r|]. split; reflexivity.
  - unfold update_brand_parent_info. eexists [_].
    split; [apply remote_update_log|]. split; [|discriminate].
    reflexivity.
Qed.

(** One visit: what the item's processing adds to the log, and when the
    item is reported as not processed. *)
Lemma process_review_item_step item choice fs dry_run :
  choice = "a" \/ choice = "r" \/ choice = "s" ->
  exists log,
    calls (snd (process_review_item item choice fs dry_run)) = calls fs ++ log
    /\ (dry_run = true -> log = [])
    /\ length (List.filter failed_social log)
       = (if fst (process_review_item item choice fs dry_run) then 0
          else if String.eqb choice "s" then 0 else 1)
    /\ (fst (process_review_item item choice fs dry_run) = true ->
        String.eqb choice "s" = false)
    /\ (fst (process_review_item item choice fs dry_run) = false ->
        keepable (item, choice) = true).
Proof.
  intros [->|[->| ->]].
  - unfold process_review_item. change (py_lower "a") with "a".
    cbn [String.eqb Ascii.eqb Bool.eqb].
    destruct item as [company normalized brand score contact top
                     |parent_name parent_brand sub_name normalized sub_brand score top
                     |]; cbn beta iota.
    + unfold keepable, accept_may_fail. cbn [fst snd String.eqb Ascii.eqb Bool.eqb orb andb].
      destruct (decide (social_updates_of contact = ∅)) as [He|Hne].
      { exists []. cbn [fst snd]. split; [by rewrite app_nil_r|].
        split; [reflexivity|]. split; [reflexivity|]. split; [reflexivity|].
        discriminate. }
      rewrite (bool_decide_eq_false_2 _ Hne). cbn [negb].
      destruct (update_brand_social_trace fs (brand_id brand)
                  (social_updates_of contact) dry_run) as (log & L & C & D).
      destruct (update_brand_social _ _ _ _) as [[] fs1]; cbn [fst snd] in *;
        exists log; repeat split; done.
    + destruct (update_parent_subsidiaries_trace fs (brand_id parent_brand)
                  [brand_id sub_brand] dry_run) as (log1 & L1 & C1 & D1).
      destruct (update_parent_subsidiaries _ _ _ _) as [ok1 fs1]. cbn [fst snd] in L1.
      destruct (update_brand_parent_info_trace fs1 (brand_id sub_brand)
                  parent_name (brand_id parent_brand) dry_run) as (log2 & L2 & C2 & D2).
      destruct (update_brand_parent_info _ _ _ _ _) as [ok2 fs2]. cbn [fst snd] in *.
      exists (log1 ++ log2). split; [by rewrite L2, L1, app_assoc|].
      split; [intros Hd; by rewrite (D1 Hd), (D2 Hd)|].
      split; [by rewrite List.filter_app, C1, C2|]. split; [reflexivity|discriminate].
    + exists []. cbn [fst snd]. split; [by rewrite app_nil_r|].
      split; [reflexivity|]. split; [reflexivity|]. split; [reflexivity|discriminate].
  - exists []. change (process_review_item item "r" fs dry_run) with (true, fs).
    cbn [fst snd]. split; [by rewrite app_nil_r|].
    split; [reflexivity|]. split; [reflexivity|]. split; [reflexivity|discriminate].
  - exists []. change (process_review_item item "s" fs dry_run) with (false, fs).
    cbn [fst snd]. split; [by rewrite app_nil_r|].
    split; [reflexivity|]. split; [reflexivity|]. split; [discriminate|reflexivity].
Qed.

Lemma review_loop_quit_trace dry_run items :
  forall inputs remaining n fs saved n' fs',
    review_loop dry_run items inputs remaining n fs = (Quit saved n', fs') ->
    items = map fst (visited items inputs) ++ drop (length (visited items inputs)) items
    /\ drop (length (visited items inputs)) items <> []
    /\ exists kept log,
         saved = remaining ++ kept ++ drop (length (visited items inputs)) items
         /\ calls fs' = calls fs ++ log
         /\ (dry_run = true -> log = [])
         /\ sublist (skipped_items (visited items inputs)) kept
         /\ sublist kept (map fst (List.filter keepable (visited items inputs)))
         /\ length kept
            = length (skipped_items (visited items inputs))
              + length (List.filter failed_social log)
         /\ n' + length (List.filter failed_social log)
            = n + decided_count (visited items inputs).
Proof.
  induction items as [|item items IH]; intros inputs remaining n fs saved n' fs' H.
  - cbn [review_loop] in H. pose proof (f_equal (fun r => is_quit (fst r)) H). done.
  - cbn [review_loop visited] in *.
    destruct (read_choice inputs) as [[choice inputs']|] eqn:R.
    2:{ pose proof (f_equal (fun r => is_quit (fst r)) H). done. }
    destruct (String.eqb choice "q") eqn:Eq.
    + pose proof (f_equal (fun r => saved_items (fst r)) H) as Hs.
      pose proof (f_equal (fun r => processed_total (fst r)) H) as Hn.
      pose proof (f_equal snd H) as Hf.
      cbn in Hs, Hn, Hf. subst saved n' fs'.
      split; [reflexivity|]. split; [discriminate|].
      exists [], []. cbn [app length List.filter skipped_items decided_count map].
      rewrite app_nil_r. repeat split; done.
    + assert (Hv : choice = "a" \/ choice = "r" \/ choice = "s").
      { destruct (read_choice_valid _ _ _ R) as [->|Hv]; [discriminate Eq|exact Hv]. }
      destruct (process_review_item_step item choice fs dry_run Hv)
        as (log1 & L1 & D1 & C1 & P1 & K1).
      destruct (process_review_item item choice fs dry_run) as [processed fs1].
      cbn [fst snd] in *.
      destruct processed.
      * destruct (IH _ _ _ _ _ _ _ H)
          as (Hsplit & Hrest & kept & log & -> & L & D & Hsk & Hkp & Hlen & Hn).
        specialize (P1 eq_refl).
        cbn [length drop skipn map fst app].
        split; [f_equal; exact Hsplit|]. split; [exact Hrest|].
        exists kept, (log1 ++ log).
        split; [reflexivity|]. split; [by rewrite L, L1, app_assoc|].
        split; [intros Hd; by rewrite (D1 Hd), (D Hd)|].
        rewrite List.filter_app, length_app, C1.
        unfold skipped_items, decided_count in *.
        cbn [List.filter snd]. rewrite P1.
        split; [exact Hsk|]. split.
        { destruct (keepable (item, choice)); [|exact Hkp].
          cbn [map fst]. by apply sublist_cons. }
        split; [exact Hlen|].
        destruct Hv as [->|[->| ->]]; [| |discriminate P1];
          cbn [String.eqb Ascii.eqb Bool.eqb orb length]; lia.
      * destruct (IH _ _ _ _ _ _ _ H)
          as (Hsplit & Hrest & kept & log & -> & L & D & Hsk & Hkp & Hlen & Hn).
        specialize (K1 eq_refl).
        cbn [length drop skipn map fst app].
        split; [f_equal; exact Hsplit|]. split; [exact Hrest|].
        exists (item :: kept), (log1 ++ log).
        split; [by rewrite <- app_assoc|]. split; [by rewrite L, L1, app_assoc|].
        split; [intros Hd; by rewrite (D1 Hd), (D Hd)|].
        rewrite List.filter_app, length_app, C1.
        unfold skipped_items, decided_count in *.
        cbn [List.filter snd]. rewrite K1. cbn [map fst length].
        destruct Hv as [->|[->| ->]];
          cbn [String.eqb Ascii.eqb Bool.eqb orb length map fst] in *.
        -- split; [by apply sublist_cons|]. split; [by apply sublist_skip|].
           split; lia.
        -- discriminate K1.
        -- split; [by apply sublist_skip|]. split; [by apply sublist_skip|].
           split; lia.
Qed.

Lemma visited_count items :
  forall inputs,
    length (visited items inputs)
    = length (skipped_items (visited items inputs))
      + decided_count (visited items inputs).
Proof.
  induction items as [|item items IH]; intros inputs; [reflexivity|].
  cbn [visited].
  destruct (read_choice inputs) as [[choice inputs']|] eqn:R; [|reflexivity].
  destruct (String.eqb choice "q") eqn:Eq; [reflexivity|].
  specialize (IH inputs'). unfold skipped_items, decided_count in *.
  rewrite length_map in *.
  destruct (read_choice_valid _ _ _ R) as [->|[->|[->| ->]]]; [discriminate Eq|..];
    cbn [List.filter snd String.eqb Ascii.eqb Bool.eqb orb length]; lia.
Qed.

Lemma visited_length items :
  forall inputs, length (visited items inputs) <= length items.
Proof.
  induction items as [|item items IH]; intros inputs; [reflexivity|].
  cbn [visited]. destruct (read_choice inputs) as [[choice inputs']|]; [|cbn; lia].
  destruct (String.eqb choice "q"); [cbn; lia|].
  cbn [length]. specialize (IH inputs'). lia.
Qed.

Lemma sublist_filter_fst (f : ReviewItem * string -> bool) v :
  sublist (map fst (List.filter f v)) (map fst v).
Proof.
  induction v as [|ic v IH]; [constructor|].
  cbn [List.filter map]. destruct (f ic).
  - cbn [map]. by apply sublist_skip.
  - by apply sublist_cons.
Qed.

Lemma sublist_same_length {A} (l1 l2 : list A) :
  sublist l1 l2 -> length l1 = length l2 -> l1 = l2.
Proof.
  induction 1 as [|x l1 l2 _ IH|x l1 l2 Hs _]; intros Hlen.
  - reflexivity.
  - f_equal. apply IH. cbn [length] in Hlen. lia.
  - apply sublist_length in Hs. cbn [length] in Hlen. lia.
Qed.

(** C7 (as amended).  When the session ends on quit, the saved list is the
    items kept among those visited, in their order, followed by every item
    from the quit position on.  The kept items are all the skipped items
    together with the accepted contact items whose write was reported as
    failed: one for each failed contact write in the log of the session.
    The processed count is the number of accept and reject choices less
    those failures, and the saved list has [T - processed] elements and is
    a subsequence of the queue.  When no call of the session failed, and
    in particular in a dry run, the saved list is exactly the skipped
    items followed by the items not visited, and a session with [N]
    accept and reject choices saves [T - N] items. *)
Theorem quit_saves_skipped_and_failed dry_run review_items inputs fs saved n fs' :
  review_session dry_run review_items inputs fs = (Quit saved n, fs') ->
  review_items
  = map fst (visited review_items inputs)
    ++ drop (length (visited review_items inputs)) review_items
  /\ drop (length (visited review_items inputs)) review_items <> []
  /\ (exists kept,
        saved = kept ++ drop (length (visited review_items inputs)) review_items
        /\ sublist (skipped_items (visited review_items inputs)) kept
        /\ sublist kept
             (map fst (List.filter keepable (visited review_items inputs)))
        /\ length kept
           = length (skipped_items (visited review_items inputs))
             + length (List.filter failed_social
                         (drop (length (calls fs)) (calls fs'))))
  /\ n + length (List.filter failed_social (drop (length (calls fs)) (calls fs')))
     = decided_count (visited review_items inputs)
  /\ length saved = length review_items - n
  /\ sublist saved review_items
  /\ (all_succeeded (drop (length (calls fs)) (calls fs')) ->
      saved = skipped_items (visited review_items inputs)
              ++ drop (length (visited review_items inputs)) review_items
      /\ n = decided_count (visited review_items inputs)
      /\ length saved
         = length review_items - decided_count (visited review_items inputs))
  /\ (dry_run = true ->
      saved = skipped_items (visited review_items inputs)
              ++ drop (length (visited review_items inputs)) review_items
      /\ n = decided_count (visited review_items inputs)).
Proof.
  intros H. unfold review_session in H.
  destruct (review_loop_quit_trace _ _ _ _ _ _ _ _ _ H)
    as (Hsplit & Hrest & kept & log & Hsaved & L & D & Hsk & Hkp & Hlen & Hn).
  cbn [app] in Hsaved. cbn [Nat.add] in Hn.
  rewrite L, drop_app_length.
  pose proof (visited_count review_items inputs) as Hcount.
  pose proof (visited_length review_items inputs) as Hvl.
  assert (Hitems : length review_items
                   = length (visited review_items inputs)
                     + length (drop (length (visited review_items inputs))
                                 review_items)).
  { rewrite length_drop. lia. }
  assert (Hsl : length saved = length review_items - n).
  { rewrite Hsaved, length_app. lia. }
  assert (Hexact : List.filter failed_social log = [] ->
            saved = skipped_items (visited review_items inputs)
                    ++ drop (length (visited review_items inputs)) review_items
            /\ n = decided_count (visited review_items inputs)).
  { intros Hf. rewrite Hf in Hlen, Hn. cbn [length] in Hlen, Hn.
    rewrite Nat.add_0_r in Hlen, Hn.
    rewrite (sublist_same_length _ _ Hsk (eq_sym Hlen)). by split. }
  split; [exact Hsplit|]. split; [exact Hrest|].
  split; [exists kept; by repeat split|].
  split; [exact Hn|]. split; [exact Hsl|]. split.
  { rewrite Hsaved. rewrite Hsplit at 3. apply sublist_app; [|reflexivity].
    etransitivity; [exact Hkp|]. apply sublist_filter_fst. }
  split.
  - intros Hok. destruct (Hexact (all_succeeded_no_failed_social _ Hok)) as [Hs' Hn'].
    split; [exact Hs'|]. split; [exact Hn'|]. by rewrite <- Hn'.
  - intros Hd. apply Hexact. by rewrite (D Hd).
Qed.

Lemma quit_saves_skipped_and_failed_witness :
  fst (review_session false [acme_review; zeta_review; acme_group_review]
         ["a"; "x"; " R "; "q"] (mkFirestore sample_docs [true] []))
  = Quit [acme_review; acme_group_review] 1
  /\ 1 + length (List.filter failed_social
                   (drop (length (calls (mkFirestore sample_docs [true] [])))
                      (calls (snd (review_session false
                                     [acme_review; zeta_review; acme_group_review]
                                     ["a"; "x"; " R "; "q"]
                                     (mkFirestore sample_docs [true] []))))))
     = decided_count (visited [acme_review; zeta_review; acme_group_review]
                        ["a"; "x"; " R "; "q"])
  /\ length [acme_review; acme_group_review]
     = length [acme_review; zeta_review; acme_group_review] - 1.
Proof.
  split; [vm_compute; reflexivity|].
  assert (Hrun : review_session false [acme_review; zeta_review; acme_group_review]
                   ["a"; "x"; " R "; "q"] (mkFirestore sample_docs [true] [])
                 = (Quit [acme_review; acme_group_review] 1,
                    snd (review_session false
                           [acme_review; zeta_review; acme_group_review]
                           ["a"; "x"; " R "; "q"]
                           (mkFirestore sample_docs [true] [])))).
  { vm_compute. reflexivity. }
  destruct (quit_saves_skipped_and_failed false
              [acme_review; zeta_review; acme_group_review]
              ["a"; "x"; " R "; "q"] (mkFirestore sample_docs [true] [])
              [acme_review; acme_group_review] 1 _ Hrun)
    as (_ & _ & _ & Hn & Hlen & _).
  split; [exact Hn|exact Hlen].
Defined.

(** C7, as stated, fails: the first item is accepted but its write
    raises, so the tool keeps it; quitting at the second item saves both
    items although one accept was entered. *)
Lemma quit_saves_skipped_counterexample :
  ~ quit_saves_skipped_claim false [acme_review; zeta_review] ["a"; "q"]
      (mkFirestore sample_docs [true] []).
Proof.
  intros H.
  assert (Hrun : review_session false [acme_review; zeta_review] ["a"; "q"]
                   (mkFirestore sample_docs [true] [])
                 = (Quit [acme_review; zeta_review] 0,
                    snd (review_session false [acme_review; zeta_review] ["a"; "q"]
                           (mkFirestore sample_docs [true] [])))).
  { vm_compute. reflexivity. }
  destruct (H _ _ _ Hrun) as [_ Hlen].
  vm_compute in Hlen. discriminate Hlen.
Qed.

Lemma normalize_company_name_words name :
  exists ws,
    chars (normalize_company_name name) = join ws
    /\ Forall good_token ws
    /\ Forall (Forall (fun c => tidy_char c = true)) ws
    /\ Forall (fun w => survives w = true) ws.
Proof.
  assert (H0 : exists ws : list (list ascii),
             [] = join ws /\ Forall good_token ws
             /\ Forall (Forall (fun c => tidy_char c = true)) ws
             /\ Forall (fun w => survives w = true) ws).
  { exists []. repeat split; constructor. }
  destruct name as [[|c0 s0]|]; [exact H0| |exact H0].
  cbn [normalize_company_name]. unfold chars at 1.
  rewrite list_ascii_of_string_of_list_ascii, normalize_text_words.
  exists (List.filter survives (words (prepare (chars (String c0 s0))))).
  split; [done|]. split; [apply filter_keeps_Forall, words_good|].
  split; [apply filter_keeps_Forall, words_Forall, prepare_tidy|].
  apply List.Forall_forall. intros w Hw. apply List.filter_In in Hw. tauto.
Qed.

(** X1. A normalized name is in canonical form: it is its own words joined
    by single spaces (so it has no leading, trailing or repeated white
    space), and each of its characters is a space or an alphanumeric
    character that [lower] leaves unchanged. *)
Theorem normalize_company_name_canonical name :
  chars (normalize_company_name name)
  = join (words (chars (normalize_company_name name)))
  /\ strip (chars (normalize_company_name name)) = chars (normalize_company_name name)
  /\ Forall (fun c => c = " "%char \/ (is_alnum c = true /\ lower_char c = c))
       (chars (normalize_company_name name)).
Proof.
  destruct (normalize_company_name_words name) as (ws & -> & Hgood & Htidy & _).
  split; [by rewrite words_join|]. split.
  - pose proof (strip_join_spaces ws [] Hgood ltac:(constructor)) as E.
    by rewrite app_nil_r in E.
  - apply join_Forall; [by left|].
    rewrite Forall_forall in *. intros w Hw.
    specialize (Htidy w Hw). destruct (Hgood w Hw) as [_ Hns].
    rewrite Forall_forall in *. intros c Hc. right.
    specialize (Htidy c Hc). specialize (Hns c Hc).
    unfold tidy_char, simple_char in Htidy.
    apply andb_true_iff in Htidy. destruct Htidy as [H1 H2].
    rewrite Hns, orb_false_r in H1. split; [done|]. by apply Ascii.eqb_eq.
Qed.

Lemma all_decimal_matches w :
  w <> [] -> forallb is_decimal w = true -> no_match match_number w = false.
Proof.
  intros Hne Hd. unfold no_match, match_number.
  assert (Hrun : forall t, t <> [] -> forallb is_decimal t = true ->
                           exists k, match_digit_run t = Some k).
  { induction t as [|c t IH]; [done|]. intros _ H. cbn [forallb] in H.
    apply andb_true_iff in H. destruct H as [Hc Ht]. cbn [match_digit_run].
    rewrite Hc. destruct t as [|c2 t].
    - simpl. unfold at_boundary. simpl.
      rewrite (alnum_word c (decimal_alnum c Hc)). eauto.
    - destruct (IH ltac:(done) Ht) as [k ->]. eauto. }
  destruct w as [|c w]; [done|]. cbn [forallb] in Hd.
  pose proof Hd as Hd'. apply andb_true_iff in Hd'. destruct Hd' as [Hc _].
  unfold at_boundary. cbn [head is_word_opt]. 
  rewrite (alnum_word c (decimal_alnum c Hc)). cbn [xorb].
  by destruct (Hrun (c :: w) ltac:(done) Hd) as [k ->].
Qed.

Lemma SUFFIX_WORDS_removed :
  forallb (fun x => negb (survives (chars x))) SUFFIX_WORDS = true.
Proof. vm_compute. reflexivity. Qed.

(** X2. No word of a normalized name is one of the undotted legal-entity
    suffix words, and none consists of digits only. *)
Theorem normalize_company_name_drops_suffix_words name w :
  In w (words (chars (normalize_company_name name))) ->
  ~ In w (map chars SUFFIX_WORDS) /\ forallb is_decimal w = false.
Proof.
  destruct (normalize_company_name_words name) as (ws & -> & Hgood & _ & Hsurv).
  rewrite words_join by done. intros Hw.
  rewrite List.Forall_forall in Hsurv, Hgood. specialize (Hsurv w Hw).
  destruct (Hgood w Hw) as [Hne _]. split.
  - intros Hin. apply in_map_iff in Hin. destruct Hin as (x & <- & Hx).
    pose proof SUFFIX_WORDS_removed as H. rewrite forallb_forall in H.
    specialize (H x Hx). rewrite Hsurv in H. done.
  - destruct (forallb is_decimal w) eqn:E; [|done].
    pose proof (all_decimal_matches w Hne E) as Hm.
    unfold survives in Hsurv. apply andb_true_iff in Hsurv.
    destruct Hsurv as [_ Hsurv]. congruence.
Qed.

Lemma normalize_company_name_drops_suffix_words_witness :
  In (chars "acme")
    (words (chars (normalize_company_name (Some "ACME Holdings 2000 Ltd."))))
  /\ ~ In (chars "acme") (map chars SUFFIX_WORDS).
Proof.
  assert (H : In (chars "acme")
                (words (chars (normalize_company_name (Some "ACME Holdings 2000 Ltd."))))).
  { vm_compute. by left. }
  split; [exact H|].
  apply (normalize_company_name_drops_suffix_words
           (Some "ACME Holdings 2000 Ltd.") (chars "acme") H).
Defined.

(** X3. Normalization ignores letter case: lower-casing the input first
    does not change the result. *)
Theorem normalize_company_name_ignores_case s :
  normalize_company_name (Some (py_lower s)) = normalize_company_name (Some s).
Proof.
  assert (E : forall x, str_lower (str_lower x) = str_lower x).
  { intros x. unfold str_lower. rewrite map_map. apply map_ext.
    intros c. apply lower_char_idem. }
  assert (N : forall x, normalize_text (str_lower x) = normalize_text x).
  { intros x. unfold normalize_text. by rewrite E. }
  assert (C : chars (py_lower s) = str_lower (chars s)).
  { unfold py_lower, on_chars, chars.
    apply list_ascii_of_string_of_list_ascii. }
  destruct s as [|c0 s0]; [done|].
  destruct (py_lower (String c0 s0)) as [|c1 s1] eqn:L; [done|].
  cbn [normalize_company_name]. by rewrite C, N.
Qed.

Lemma classify_monotone {M : FuzzMetrics} fm (s s' : Q) :
  (s <= s')%Q ->
  disposition_rank (classify fm s) <= disposition_rank (classify fm s').
Proof.
  intros Hle. unfold classify.
  destruct (Qle_bool (auto_accept_threshold fm) s) eqn:E1.
  - apply Qle_bool_iff in E1.
    assert (E : Qle_bool (auto_accept_threshold fm) s' = true)
      by (apply Qle_bool_iff; by eapply Qle_trans).
    by rewrite E.
  - destruct (Qle_bool (manual_review_threshold fm) s) eqn:E2.
    + apply Qle_bool_iff in E2.
      assert (E : Qle_bool (manual_review_threshold fm) s' = true)
        by (apply Qle_bool_iff; by eapply Qle_trans).
      rewrite E. destruct (Qle_bool (auto_accept_threshold fm) s'); simpl; lia.
    + simpl. lia.
Qed.

Section MatchingExtras.
Context {M : FuzzMetrics}.

(** X4. The similarity of two strings is 0 when either is empty;
    otherwise it is the largest of the four metrics: at least each of
    them and equal to one of them. *)
Theorem calculate_similarity_is_max a b :
  (a = "" \/ b = "" -> calculate_similarity a b = 0%Q)
  /\ (a <> "" -> b <> "" ->
      (ratio a b <= calculate_similarity a b
       /\ partial_ratio a b <= calculate_similarity a b
       /\ token_sort_ratio a b <= calculate_similarity a b
       /\ token_set_ratio a b <= calculate_similarity a b)%Q
      /\ In (calculate_similarity a b)
           [ratio a b; partial_ratio a b; token_sort_ratio a b;
            token_set_ratio a b]).
Proof.
  split.
  - intros [-> | ->];
      [apply calculate_similarity_empty_l|apply calculate_similarity_empty_r].
  - intros Ha Hb. unfold calculate_similarity.
    apply nonempty_true in Ha, Hb. rewrite Ha, Hb. cbn [negb orb].
    set (m1 := py_max (ratio a b) (partial_ratio a b)).
    set (m2 := py_max m1 (token_sort_ratio a b)).
    destruct (py_max_ge (ratio a b) (partial_ratio a b)) as [G1 G2].
    destruct (py_max_ge m1 (token_sort_ratio a b)) as [G3 G4].
    destruct (py_max_ge m2 (token_set_ratio a b)) as [G5 G6].
    fold m1 in G1, G2. fold m2 in G3, G4. split.
    + repeat split; try done.
      * eapply Qle_trans; [exact G1|]. eapply Qle_trans; [exact G3|exact G5].
      * eapply Qle_trans; [exact G2|]. eapply Qle_trans; [exact G3|exact G5].
      * eapply Qle_trans; [exact G4|exact G5].
    + destruct (py_max_cases m2 (token_set_ratio a b)) as [-> | ->];
        [|simpl; tauto].
      destruct (py_max_cases m1 (token_sort_ratio a b)) as [E | E];
        fold m2 in E; rewrite E; [|simpl; tauto].
      destruct (py_max_cases (ratio a b) (partial_ratio a b)) as [E' | E'];
        fold m1 in E'; rewrite E'; simpl; tauto.
Qed.

Lemma best_scan_lower_bound query candidates bm bs :
  (bs <= snd (best_scan query candidates bm bs))%Q
  /\ Forall (fun c => (calculate_similarity query (fst c)
                       <= snd (best_scan query candidates bm bs))%Q) candidates
  /\ (snd (best_scan query candidates bm bs) = bs
      \/ Exists (fun c => calculate_similarity query (fst c)
                          = snd (best_scan query candidates bm bs)) candidates).
Proof.
  destruct (best_scan query candidates bm bs) as [e s] eqn:E.
  destruct (best_scan_spec _ _ _ _ _ _ E) as (H1 & H2 & H3). cbn [snd].
  split; [done|]. split; [done|].
  destruct H3 as [[_ ->]|(l1 & n & b & l2 & -> & _ & -> & _)]; [by left|].
  right. apply Exists_app. right. by apply Exists_cons_hd.
Qed.

(** X5. Offering more candidates never lowers the best score and never
    worsens the disposition. *)
Theorem find_best_match_more_candidates fm query
    (candidates more : list (string * Brand)) :
  (snd (fst (find_best_match fm query candidates))
   <= snd (fst (find_best_match fm query (candidates ++ more))))%Q
  /\ disposition_rank (snd (find_best_match fm query candidates))
     <= disposition_rank (snd (find_best_match fm query (candidates ++ more))).
Proof.
  destruct (String.eqb_spec query "") as [Hq|Hq].
  { rewrite !(find_best_match_empty fm query _ (or_introl Hq)).
    split; [apply Qle_refl|done]. }
  destruct candidates as [|c0 rest].
  { rewrite (find_best_match_empty fm query [] (or_intror eq_refl)).
    cbn [app fst snd disposition_rank]. split; [|lia].
    destruct more as [|m0 more'].
    - rewrite (find_best_match_empty fm query [] (or_intror eq_refl)).
      apply Qle_refl.
    - rewrite (find_best_match_scan fm query (m0 :: more') Hq) by done.
      cbn [fst snd]. apply best_scan_lower_bound. }
  assert (Hle : (snd (best_scan query (c0 :: rest) None 0)
                 <= snd (best_scan query ((c0 :: rest) ++ more) None 0))%Q).
  { destruct (best_scan_lower_bound query (c0 :: rest) None 0%Q) as (_ & _ & [E|E]).
    - rewrite E. apply best_scan_lower_bound.
    - destruct (best_scan_lower_bound query ((c0 :: rest) ++ more) None 0%Q)
        as (_ & Hall & _).
      apply Exists_exists in E. destruct E as (c & Hin & <-).
      rewrite Forall_forall in Hall. apply Hall. apply elem_of_app. by left. }
  rewrite (find_best_match_scan fm query (c0 :: rest) Hq) by done.
  rewrite (find_best_match_scan fm query ((c0 :: rest) ++ more) Hq) by done.
  cbn [fst snd]. split; [done|]. by apply classify_monotone.
Qed.

Lemma best_scan_at_short query names candidates :
  forall i bm bs,
    i <= length names -> length names < i + length candidates ->
    best_scan_at query names i candidates bm bs = None.
Proof.
  induction candidates as [|[n b] rest IH]; intros i bm bs Hi Hlen.
  - simpl in Hlen. lia.
  - cbn [best_scan_at]. destruct (names !! i) as [name|] eqn:E; [|done].
    apply lookup_lt_Some in E. cbn [length] in Hlen.
    destruct (Qltb bs (calculate_similarity query name)); apply IH; lia.
Qed.

(** X6. [find_best_match] with an explicit [normalized_candidates] list:
    the candidates' own names give the same result as the default; a
    list shorter than the candidate list raises [IndexError] for a
    non-empty query, while an empty query returns the reject triple
    before the list is read. *)
Theorem find_best_match_with_names fm query (candidates : list (string * Brand))
    (names : list string) :
  find_best_match_with fm query candidates (Some (map fst candidates))
  = Some (find_best_match fm query candidates)
  /\ (query <> "" -> length names < length candidates ->
      find_best_match_with fm query candidates (Some names) = None)
  /\ (query = "" ->
      find_best_match_with fm query candidates (Some names)
      = Some (None, 0%Q, reject)).
Proof.
  split; [exact (find_best_match_with_default fm query candidates)|]. split.
  - intros Hq Hlen. unfold find_best_match_with.
    apply nonempty_true in Hq. rewrite Hq. cbn [negb orb].
    destruct candidates as [|c0 rest]; [simpl in Hlen; lia|].
    rewrite best_scan_at_short; [done|lia|simpl in *; lia].
  - intros ->. done.
Qed.

End MatchingExtras.

Lemma find_best_match_with_names_witness :
  find_best_match_with (M := exact_metrics) default_matcher "acme" sample_brands
    (Some ["acme"]) = None.
Proof.
  apply (find_best_match_with_names (M := exact_metrics) default_matcher "acme"
           sample_brands ["acme"]); [discriminate|simpl; lia].
Defined.

Lemma calculate_similarity_is_max_witness :
  In (calculate_similarity (M := exact_metrics) "acme" "acme")
    [ratio (FuzzMetrics := exact_metrics) "acme" "acme";
     partial_ratio (FuzzMetrics := exact_metrics) "acme" "acme";
     token_sort_ratio (FuzzMetrics := exact_metrics) "acme" "acme";
     token_set_ratio (FuzzMetrics := exact_metrics) "acme" "acme"].
Proof.
  apply (calculate_similarity_is_max (M := exact_metrics) "acme" "acme");
    discriminate.
Defined.

Lemma insert_desc_Forall (P : Brand * Q -> Prop) x l :
  P x -> Forall P l -> Forall P (insert_desc x l).
Proof.
  intros Hx. induction 1 as [|y l Hy Hl IH]; [by constructor|].
  cbn [insert_desc]. destruct (Qltb (snd x) (snd y)); by repeat constructor.
Qed.

Lemma insert_desc_perm x l : Permutation (insert_desc x l) (x :: l).
Proof.
  induction l as [|y l IH]; [done|]. cbn [insert_desc].
  destruct (Qltb (snd x) (snd y)); [|done].
  rewrite IH. apply perm_swap.
Qed.

Lemma sort_desc_perm l : Permutation (sort_desc l) l.
Proof.
  induction l as [|x l IH]; [done|]. cbn [sort_desc foldr].
  fold (sort_desc l). rewrite insert_desc_perm. by constructor.
Qed.

Lemma insert_desc_sorted x l :
  StronglySorted score_ge l -> StronglySorted score_ge (insert_desc x l).
Proof.
  induction 1 as [|y l Hs IH Hy]; [repeat constructor|].
  cbn [insert_desc]. destruct (Qltb (snd x) (snd y)) eqn:E.
  - apply Qltb_lt in E. constructor; [done|].
    apply insert_desc_Forall; [|done]. unfold score_ge. by apply Qlt_le_weak.
  - apply Qltb_ge in E. constructor; [by constructor|].
    constructor; [done|]. eapply Forall_impl; [exact Hy|].
    intros z Hz. unfold score_ge in *. by eapply Qle_trans.
Qed.

Lemma sort_desc_sorted l : StronglySorted score_ge (sort_desc l).
Proof.
  induction l as [|x l IH]; [constructor|]. cbn [sort_desc foldr].
  by apply insert_desc_sorted.
Qed.

Lemma take_sorted n (l : list (Brand * Q)) :
  StronglySorted score_ge l -> StronglySorted score_ge (take n l).
Proof.
  intros H. revert n. induction H as [|x l Hs IH Hx]; intros [|n]; try constructor.
  - apply IH.
  - rewrite Forall_forall in *. intros y Hy. apply Hx.
    by apply (subseteq_take n l).
Qed.

(** The first maximum of a scored list heads its stable descending sort. *)
Lemma sort_desc_head l1 x l2 :
  Forall (fun y => (snd y < snd x)%Q) l1 ->
  Forall (fun y => (snd y <= snd x)%Q) l2 ->
  exists rest, sort_desc (l1 ++ x :: l2) = x :: rest.
Proof.
  intros H1 H2. induction H1 as [|a l1 Ha _ IH].
  - cbn [app sort_desc foldr]. fold (sort_desc l2).
    assert (H : Forall (fun y => (snd y <= snd x)%Q) (sort_desc l2)).
    { rewrite Forall_forall in *. intros y Hy. apply H2.
      by rewrite <- (sort_desc_perm l2). }
    destruct (sort_desc l2) as [|y r]; [by eexists|].
    cbn [insert_desc]. inversion H as [|? ? Hy _]; subst.
    apply Qltb_ge in Hy. rewrite Hy. by eexists.
  - destruct IH as [rest E]. cbn [app sort_desc foldr].
    fold (sort_desc (l1 ++ x :: l2)). rewrite E. cbn [insert_desc].
    apply Qltb_lt in Ha. rewrite Ha. by eexists.
Qed.

Section TopMatches.
Context {M : FuzzMetrics}.

(** X7. The top matches are the first [limit] elements of the
    candidates' (brand, score) pairs rearranged in descending order of
    score, so that every match stands for a candidate of its own: they
    are at most [limit] and at most as many as the candidates, are
    sorted by score in descending order, and each pairs a candidate's
    brand with that candidate's similarity to the query; an empty query
    or candidate list gives no match. *)
Theorem find_all_matches_sorted query (candidates : list (string * Brand)) limit :
  length (find_all_matches query candidates limit) <= limit
  /\ length (find_all_matches query candidates limit) <= length candidates
  /\ StronglySorted score_ge (find_all_matches query candidates limit)
  /\ Forall (fun m => exists n, In (n, fst m) candidates
                                /\ snd m = calculate_similarity query n)
       (find_all_matches query candidates limit)
  /\ (query = "" \/ candidates = [] -> find_all_matches query candidates limit = [])
  /\ (exists scored,
        Permutation scored
          (map (fun c => (snd c, calculate_similarity query (fst c))) candidates)
        /\ StronglySorted score_ge scored
        /\ find_all_matches query candidates limit
           = if nonempty query then take limit scored else []).
Proof.
  assert (Hperm : exists scored,
            Permutation scored
              (map (fun c => (snd c, calculate_similarity query (fst c))) candidates)
            /\ StronglySorted score_ge scored
            /\ find_all_matches query candidates limit
               = if nonempty query then take limit scored else []).
  { exists (sort_desc
              (map (fun c => (snd c, calculate_similarity query (fst c))) candidates)).
    split; [apply sort_desc_perm|]. split; [apply sort_desc_sorted|].
    unfold find_all_matches. destruct (nonempty query); cbn [negb orb]; [|reflexivity].
    destruct candidates; [by destruct limit|reflexivity]. }
  split; [|split; [|split; [|split; [|split; [|exact Hperm]]]]]; clear Hperm.
  all: unfold find_all_matches.
  all: destruct (negb (nonempty query)
                 || match candidates with [] => true | _ => false end) eqn:E.
  all: try (first [simpl; lia | constructor | reflexivity]).
  all: set (scored := map (fun c => (snd c, calculate_similarity query (fst c)))
                        candidates).
  - rewrite length_take; lia.
  - rewrite length_take. rewrite (Permutation_length (sort_desc_perm scored)).
    unfold scored. rewrite length_map. lia.
  - apply take_sorted, sort_desc_sorted.
  - apply Forall_forall. intros m Hm.
    apply (subseteq_take limit) in Hm. rewrite (sort_desc_perm scored) in Hm.
    unfold scored in Hm. apply list_elem_of_fmap in Hm.
    destruct Hm as ([n b] & -> & Hin). exists n. cbn [fst snd].
    split; [by apply list_elem_of_In|done].
  - apply orb_false_iff in E. destruct E as [E1 E2].
    apply negb_false_iff, nonempty_true in E1.
    intros [Hq|Hc]; [done|]. by rewrite Hc in E2.
Qed.

(** X8. When [find_best_match] returns an entity, that entity with its
    score is the first of the top matches (for any positive limit): the
    alternatives shown to the reviewer start with the proposed match. *)
Theorem find_all_matches_head_is_best fm query (candidates : list (string * Brand))
    limit b s d :
  find_best_match fm query candidates = (Some b, s, d) ->
  0 < limit ->
  head (find_all_matches query candidates limit) = Some (b, s).
Proof.
  intros Hbest Hlimit.
  destruct (String.eqb_spec query "") as [Hq|Hq].
  { by rewrite (find_best_match_empty fm query _ (or_introl Hq)) in Hbest. }
  destruct candidates as [|c0 rest].
  { by rewrite (find_best_match_empty fm query _ (or_intror eq_refl)) in Hbest. }
  rewrite (find_best_match_scan fm query (c0 :: rest) Hq) in Hbest by done.
  destruct (best_scan query (c0 :: rest) None 0%Q) as [e s'] eqn:Escan.
  cbn [fst snd] in Hbest.
  assert (He : e = Some b) by congruence. assert (Hs : s' = s) by congruence.
  subst e s'. clear Hbest.
  destruct (best_scan_spec _ _ _ _ _ _ Escan) as (_ & Hall & Hcase).
  destruct Hcase as [[Hn _]|(l1 & n & b' & l2 & Hc & Hb & -> & _ & Hl1)]; [done|].
  assert (b' = b) by congruence. subst b'.
  unfold find_all_matches. apply nonempty_true in Hq. rewrite Hq. cbn [negb orb].
  rewrite Hc in *. clear Hc.
  rewrite map_app. cbn [map fst snd].
  destruct (sort_desc_head
              (map (fun c => (snd c, calculate_similarity query (fst c))) l1)
              (b, calculate_similarity query n)
              (map (fun c => (snd c, calculate_similarity query (fst c))) l2))
    as [r ->].
  - apply Forall_map. eapply Forall_impl; [exact Hl1|]. done.
  - apply Forall_map. apply Forall_app in Hall. destruct Hall as [_ Hall].
    inversion Hall; subst. eapply Forall_impl; [eassumption|]. done.
  - destruct limit; [lia|done].
Qed.
End TopMatches.

Lemma find_all_matches_sorted_witness :
  StronglySorted score_ge (find_all_matches (M := exact_metrics) "acme" sample_brands 2)
  /\ length (find_all_matches (M := exact_metrics) "acme" sample_brands 2) <= 2
  /\ (exists scored,
        Permutation scored
          [(unnamed_brand, 0%Q); (acme_brand, 100%Q); (zeta_brand, 0%Q)]
        /\ StronglySorted score_ge scored
        /\ find_all_matches (M := exact_metrics) "acme" sample_brands 2
           = take 2 scored)
  /\ find_all_matches (M := exact_metrics) "" sample_brands 5 = [].
Proof.
  destruct (find_all_matches_sorted (M := exact_metrics) "acme" sample_brands 2)
    as (Hl & _ & Hs & _ & _ & Hp).
  split; [exact Hs|]. split; [exact Hl|]. split; [exact Hp|].
  apply (find_all_matches_sorted (M := exact_metrics) "" sample_brands 5).
  by left.
Defined.

Lemma find_all_matches_head_is_best_witness :
  head (find_all_matches (M := exact_metrics) "acme" sample_brands 5)
  = Some (acme_brand, 100%Q).
Proof.
  apply (find_all_matches_head_is_best (M := exact_metrics) default_matcher "acme"
           sample_brands 5 acme_brand 100%Q auto_accept eq_refl). lia.
Defined.

Lemma remote_update_frame fs c key change :
  (forall other, other <> key ->
                 docs (snd (remote_update fs c key change)) !! other = docs fs !! other)
  /\ (fst (remote_update fs c key change) = false ->
      docs (snd (remote_update fs c key change)) = docs fs)
  /\ (fst (remote_update fs c key change) = true ->
      exists d, docs fs !! key = Some d
                /\ docs (snd (remote_update fs c key change)) !! key = Some (change d))
  /\ faults (snd (remote_update fs c key change)) = tail (faults fs).
Proof.
  unfold remote_update.
  destruct (match faults fs with b :: _ => b | [] => false end).
  { cbn [fst snd docs faults]. repeat split; try done. }
  destruct (docs fs !! key) as [d|] eqn:E; cbn [fst snd docs faults].
  - repeat split; try done.
    + intros other Hne. by rewrite lookup_insert_ne.
    + intros _. exists d. split; [done|]. by rewrite lookup_insert_eq.
  - repeat split; try done.
Qed.

(** X9. Every client write, whether it succeeds or fails and whatever the
    method, leaves all documents other than the addressed one as they
    were; a call that reports failure changes no document at all, and a
    dry-run call changes nothing and reports success. *)
Theorem client_call_frame fs c dry_run :
  (forall other, other <> call_target c ->
                 docs (snd (client_call fs c dry_run)) !! other = docs fs !! other)
  /\ (fst (client_call fs c dry_run) = false ->
      docs (snd (client_call fs c dry_run)) = docs fs)
  /\ (dry_run = true -> client_call fs c dry_run = (true, fs)).
Proof.
  destruct dry_run.
  { destruct c; cbn; repeat split; try done. }
  destruct c as [brand updates|parent ids|brand company parent];
    cbn [client_call call_target update_brand_social update_parent_subsidiaries].
  - destruct (remote_update_frame fs (SetSocial brand updates) brand
                (fun d => mkDoc (updates ∪ social d) (subsidiaries d)
                            (parent_company d) (parent_id d))) as (H1 & H2 & _).
    repeat split; done.
  - destruct (remote_update_frame fs (SetSubsidiaries parent ids) parent
                (fun d => mkDoc (social d)
                            (fold_left (fun m sub_id => <[sub_id := true]> m)
                               ids (subsidiaries d))
                            (parent_company d) (parent_id d))) as (H1 & H2 & _).
    repeat split; done.
  - unfold update_brand_parent_info.
    destruct company as [co|], parent as [pa|];
      try (match goal with
           | |- context [remote_update ?a ?b ?c ?d] =>
               destruct (remote_update_frame a b c d) as (H1 & H2 & _)
           end; repeat split; done).
    repeat split; done.
Qed.

Lemma client_call_frame_witness :
  client_call (mkFirestore sample_docs [] []) (SetSubsidiaries "b1" ["b2"]) true
  = (true, mkFirestore sample_docs [] []).
Proof.
  apply (client_call_frame (mkFirestore sample_docs [] [])
           (SetSubsidiaries "b1" ["b2"]) true). reflexivity.
Defined.

(** X10. A successful [update_brand_social] is a field merge: in the
    addressed document every updated key holds its new value, every other
    key of the [social] map keeps its old value, and the other fields of
    the document are untouched. *)
Theorem update_brand_social_merges fs brand (updates : gmap string string) :
  fst (update_brand_social fs brand updates false) = true ->
  exists old new,
    docs fs !! brand = Some old
    /\ docs (snd (update_brand_social fs brand updates false)) !! brand = Some new
    /\ (forall k v, updates !! k = Some v -> social new !! k = Some v)
    /\ (forall k, updates !! k = None -> social new !! k = social old !! k)
    /\ subsidiaries new = subsidiaries old
    /\ parent_company new = parent_company old
    /\ parent_id new = parent_id old.
Proof.
  unfold update_brand_social. intros Hok.
  destruct (remote_update_frame fs (SetSocial brand updates) brand
              (fun d => mkDoc (updates ∪ social d) (subsidiaries d)
                          (parent_company d) (parent_id d))) as (_ & _ & H3 & _).
  destruct (H3 Hok) as (old & Ho & Hn).
  eexists old, _. split; [done|]. split; [exact Hn|]. cbn [social subsidiaries
    parent_company parent_id]. repeat split; try done.
  - intros k v Hk. by apply lookup_union_Some_l.
  - intros k Hk. by apply lookup_union_r.
Qed.

Lemma update_brand_social_merges_witness :
  exists old new,
    sample_docs !! "b1" = Some old
    /\ docs (snd (update_brand_social (mkFirestore sample_docs [] []) "b1"
                    {[ "twitter" := "t" ]} false)) !! "b1" = Some new
    /\ (forall k v, ({[ "twitter" := "t" ]} : gmap string string) !! k = Some v ->
                    social new !! k = Some v)
    /\ (forall k, ({[ "twitter" := "t" ]} : gmap string string) !! k = None ->
                  social new !! k = social old !! k)
    /\ subsidiaries new = subsidiaries old
    /\ parent_company new = parent_company old
    /\ parent_id new = parent_id old.
Proof.
  apply (update_brand_social_merges (mkFirestore sample_docs [] []) "b1"
           {[ "twitter" := "t" ]}).
  vm_compute. reflexivity.
Defined.

Lemma fold_insert_true_lookup (ids : list string) :
  forall (m : gmap string bool) k,
    fold_left (fun m sub_id => <[sub_id := true]> m) ids m !! k
    = if decide (k ∈ ids) then Some true else m !! k.
Proof.
  induction ids as [|i ids IH]; intros m k; [done|].
  cbn [fold_left]. rewrite IH.
  destruct (decide (k ∈ ids)) as [Hin|Hnin].
  - rewrite decide_True; [done|]. by apply list_elem_of_further.
  - destruct (decide (k = i)) as [->|Hne].
    + rewrite lookup_insert_eq. rewrite decide_True; [done|]. apply list_elem_of_here.
    + rewrite lookup_insert_ne by done. rewrite decide_False; [done|].
      intros H. apply elem_of_cons in H. tauto.
Qed.

(** X11. A successful [update_parent_subsidiaries] marks every given id as
    a subsidiary of the parent and keeps the marks that were already
    there; the other fields of the parent are untouched. *)
Theorem update_parent_subsidiaries_adds fs parent (ids : list string) :
  fst (update_parent_subsidiaries fs parent ids false) = true ->
  exists old new,
    docs fs !! parent = Some old
    /\ docs (snd (update_parent_subsidiaries fs parent ids false)) !! parent = Some new
    /\ (forall k, k ∈ ids -> subsidiaries new !! k = Some true)
    /\ (forall k, k ∉ ids -> subsidiaries new !! k = subsidiaries old !! k)
    /\ social new = social old
    /\ parent_company new = parent_company old
    /\ parent_id new = parent_id old.
Proof.
  unfold update_parent_subsidiaries. intros Hok.
  destruct (remote_update_frame fs (SetSubsidiaries parent ids) parent
              (fun d => mkDoc (social d)
                          (fold_left (fun m sub_id => <[sub_id := true]> m)
                             ids (subsidiaries d))
                          (parent_company d) (parent_id d))) as (_ & _ & H3 & _).
  destruct (H3 Hok) as (old & Ho & Hn).
  eexists old, _. split; [done|]. split; [exact Hn|].
  cbn [social subsidiaries parent_company parent_id]. repeat split; try done.
  - intros k Hk. rewrite fold_insert_true_lookup. by rewrite decide_True.
  - intros k Hk. rewrite fold_insert_true_lookup. by rewrite decide_False.
Qed.

Lemma update_parent_subsidiaries_adds_witness :
  exists old new,
    sample_docs !! "b1" = Some old
    /\ docs (snd (update_parent_subsidiaries (mkFirestore sample_docs [] []) "b1"
                    ["b2"] false)) !! "b1" = Some new
    /\ (forall k, k ∈ ["b2"] -> subsidiaries new !! k = Some true)
    /\ (forall k, k ∉ ["b2"] -> subsidiaries new !! k = subsidiaries old !! k)
    /\ social new = social old
    /\ parent_company new = parent_company old
    /\ parent_id new = parent_id old.
Proof.
  apply (update_parent_subsidiaries_adds (mkFirestore sample_docs [] []) "b1" ["b2"]).
  vm_compute. reflexivity.
Defined.

Lemma stat_bump u key k key' :
  stat (bump key k u) key' = if String.eqb key key' then stat u key' + k else stat u key'.
Proof.
  unfold stat, bump. cbn [stats]. destruct (String.eqb_spec key key') as [->|Hne].
  - by rewrite lookup_insert_eq.
  - by rewrite lookup_insert_ne.
Qed.

Section PipelineExtras.
Context {M : FuzzMetrics}.

Lemma upload_contact_info_frame cfg brand contact u :
  manual_review_queue (_upload_contact_info cfg brand contact u)
  = manual_review_queue u
  /\ unmatched_companies (_upload_contact_info cfg brand contact u)
     = unmatched_companies u
  /\ (forall key, key <> "errors" ->
                  stat (_upload_contact_info cfg brand contact u) key = stat u key).
Proof.
  unfold _upload_contact_info.
  destruct (decide (social_updates_of contact = ∅)); [done|].
  destruct (update_brand_social _ _ _ _) as [ok fs]. destruct ok; [done|].
  cbn [manual_review_queue unmatched_companies bump with_client].
  split; [done|]. split; [done|]. intros key Hne.
  rewrite stat_bump. destruct (String.eqb_spec "errors" key); [congruence|done].
Qed.

Lemma process_contact_counters cfg brands q0 m0 u contact :
  contact_counters_agree q0 m0 u ->
  contact_counters_agree q0 m0 (process_contact cfg brands u contact).
Proof.
  intros (H1 & H2 & H3 & H4). unfold process_contact.
  destruct (filtered_out cfg _); [done|].
  destruct (negb (nonempty _)); [done|].
  destruct (find_best_match _ _ _) as [[best_match score] status].
  assert (Hrej : contact_counters_agree q0 m0
            (add_unmatched
               (mkUnmatched "contact" (py_strip (row_get contact "company_clean")) None
                  (normalize_company_name
                     (Some (py_strip (row_get contact "company_clean")))) score)
               (bump "contacts_rejected" 1 (bump "contacts_processed" 1 u)))).
  { unfold contact_counters_agree.
    cbn [manual_review_queue unmatched_companies add_unmatched bump].
    rewrite length_app. cbn [length].
    change (stat (add_unmatched ?r ?v)) with (stat v).
    rewrite !stat_bump. cbn. lia. }
  destruct status; destruct best_match as [brand|]; try exact Hrej.
  - destruct (upload_contact_info_frame cfg (brand_id brand) contact
                (bump "contacts_matched" 1
                   (bump "contacts_auto_accepted" 1 (bump "contacts_processed" 1 u))))
      as (F1 & F2 & F3).
    unfold contact_counters_agree. rewrite F1, F2, !F3 by done.
    cbn [manual_review_queue unmatched_companies bump].
    rewrite !stat_bump. cbn. lia.
  - unfold contact_counters_agree.
    cbn [manual_review_queue unmatched_companies enqueue bump].
    rewrite length_app. cbn [length].
    change (stat (enqueue ?r ?v)) with (stat v).
    rewrite !stat_bump. cbn. lia.
Qed.

(** X12. After [process_contacts] on a fresh uploader the counters are
    consistent: every processed contact is counted exactly once as
    auto-accepted, manual review or rejected; matched equals
    auto-accepted; the review queue holds as many items as were counted
    for manual review and the unmatched list as many as were rejected. *)
Theorem process_contacts_counters cfg contacts brands client :
  contact_counters_agree 0 0
    (process_contacts cfg contacts brands (new_uploader client)).
Proof.
  unfold process_contacts.
  assert (H0 : contact_counters_agree 0 0 (new_uploader client)).
  { unfold contact_counters_agree. by vm_compute. }
  revert H0. generalize (new_uploader client).
  induction contacts as [|c contacts IH]; intros u Hu; [done|].
  cbn [fold_left]. apply IH. by apply process_contact_counters.
Qed.
End PipelineExtras.

(* LEMMAS *)
Lemma track_pure n e0 u (f : Uploader -> Uploader) :
  firebase_client (f u) = firebase_client u ->
  stat (f u) "errors" = stat u "errors" ->
  errors_track_log n e0 u -> errors_track_log n e0 (f u).
Proof.
  intros Hc Hs (H1 & H2). unfold errors_track_log. by rewrite Hc, Hs.
Qed.

Lemma track_bump n e0 u key k :
  key <> "errors" ->
  errors_track_log n e0 u -> errors_track_log n e0 (bump key k u).
Proof.
  intros Hne. apply (track_pure n e0 u (bump key k)); [done|].
  rewrite stat_bump. by destruct (String.eqb_spec key "errors").
Qed.

(** A client method either is skipped (dry run) or logs its result. *)
Lemma client_call_logs fs c dry_run :
  client_call fs c dry_run = (true, fs)
  \/ calls (snd (client_call fs c dry_run))
     = calls fs ++ [(c, fst (client_call fs c dry_run))].
Proof.
  destruct dry_run; [left; by destruct c|].
  destruct c as [brand updates|parent ids|brand company parent];
    cbn [client_call update_brand_social update_parent_subsidiaries];
    try (right; apply remote_update_log).
  unfold update_brand_parent_info.
  destruct company, parent; try (right; apply remote_update_log). by left.
Qed.

Lemma track_call n e0 u c dry_run :
  errors_track_log n e0 u ->
  errors_track_log n e0
    (if fst (client_call (firebase_client u) c dry_run)
     then with_client (snd (client_call (firebase_client u) c dry_run)) u
     else if match c with SetSubsidiaries _ _ => false | _ => true end
          then bump "errors" 1
                 (with_client (snd (client_call (firebase_client u) c dry_run)) u)
          else with_client (snd (client_call (firebase_client u) c dry_run)) u).
Proof.
  intros (H1 & H2).
  destruct (client_call_logs (firebase_client u) c dry_run) as [E|E].
  { rewrite E. cbn [fst snd]. by split. }
  assert (Hd : drop n (calls (snd (client_call (firebase_client u) c dry_run)))
               = drop n (calls (firebase_client u))
                 ++ [(c, fst (client_call (firebase_client u) c dry_run))]).
  { rewrite E. by rewrite drop_app_le. }
  assert (Hl : n <= length (calls (snd (client_call (firebase_client u) c dry_run)))).
  { rewrite E, length_app. lia. }
  destruct (fst (client_call (firebase_client u) c dry_run)) eqn:Ok.
  - split; [done|]. cbn [firebase_client with_client]. rewrite Hd.
    rewrite List.filter_app. cbn. rewrite app_nil_r. exact H2.
  - destruct c as [brand updates|parent ids|brand company parent].
    + split; [done|]. cbn [firebase_client with_client bump]. rewrite Hd.
      rewrite List.filter_app, length_app. cbn.
      rewrite stat_bump. cbn. change (stat (with_client ?f ?v)) with (stat v). lia.
    + split; [done|]. cbn [firebase_client with_client]. rewrite Hd.
      rewrite List.filter_app. cbn. rewrite app_nil_r. exact H2.
    + split; [done|]. cbn [firebase_client with_client bump]. rewrite Hd.
      rewrite List.filter_app, length_app. cbn.
      rewrite stat_bump. cbn. change (stat (with_client ?f ?v)) with (stat v). lia.
Qed.

Section ErrorCounter.
Context {M : FuzzMetrics}.

Lemma track_upload_contact n e0 cfg brand contact u :
  errors_track_log n e0 u ->
  errors_track_log n e0 (_upload_contact_info cfg brand contact u).
Proof.
  intros H. unfold _upload_contact_info.
  destruct (decide (social_updates_of contact = ∅)); [done|].
  pose proof (track_call n e0 u (SetSocial brand (social_updates_of contact))
                (dry_run cfg) H) as T.
  cbn [client_call] in T.
  by destruct (update_brand_social _ _ _ _) as [[] fs].
Qed.

Lemma track_children n e0 cfg parent_id parent_name
    (matched : list (string * Brand * Q)) :
  forall u,
    errors_track_log n e0 u ->
    errors_track_log n e0
      (fold_left
         (fun u m =>
            let '(sub_success, fs) :=
              update_brand_parent_info (firebase_client u) (fst (fst m))
                (Some parent_name) (Some parent_id) (dry_run cfg) in
            let u := with_client fs u in
            if sub_success then u else bump "errors" 1 u) matched u).
Proof.
  induction matched as [|m matched IH]; intros u H; [done|].
  cbn [fold_left]. apply IH.
  pose proof (track_call n e0 u
                (SetParentInfo (fst (fst m)) (Some parent_name) (Some parent_id))
                (dry_run cfg) H) as T.
  cbn [client_call] in T.
  by destruct (update_brand_parent_info _ _ _ _ _) as [[] fs].
Qed.

Lemma track_upload_subsidiary n e0 cfg parent_id parent_name matched u :
  errors_track_log n e0 u ->
  errors_track_log n e0 (_upload_subsidiary_info cfg parent_id parent_name matched u).
Proof.
  intros H. unfold _upload_subsidiary_info.
  pose proof (track_call n e0 u
                (SetSubsidiaries parent_id (map (fun m => fst (fst m)) matched))
                (dry_run cfg) H) as T.
  cbn [client_call] in T.
  destruct (update_parent_subsidiaries _ _ _ _) as [ok fs].
  apply track_children. by destruct ok.
Qed.

Lemma track_process_contact n e0 cfg brands u contact :
  errors_track_log n e0 u ->
  errors_track_log n e0 (process_contact cfg brands u contact).
Proof.
  intros H. unfold process_contact.
  destruct (filtered_out cfg _); [done|].
  destruct (negb (nonempty _)); [done|].
  destruct (find_best_match _ _ _) as [[best_match score] status].
  assert (B : forall key k v, key <> "errors" -> errors_track_log n e0 v ->
                              errors_track_log n e0 (bump key k v))
    by (intros; by apply track_bump).
  destruct status; destruct best_match as [brand|];
    try (apply (track_pure n e0 _ (add_unmatched _)); [done|done|];
         apply B; [done|]; by apply B).
  - apply track_upload_contact. apply B; [done|]. apply B; [done|]. by apply B.
  - apply (track_pure n e0 _ (enqueue _)); [done|done|].
    apply B; [done|]. by apply B.
Qed.

Lemma track_resolve_children n e0 cfg brands parent_name parent rows :
  forall u matched,
    errors_track_log n e0 u ->
    errors_track_log n e0
      (fst (fold_left (resolve_child cfg brands parent_name parent) rows (u, matched))).
Proof.
  induction rows as [|row rows IH]; intros u matched H; [done|].
  cbn [fold_left].
  destruct (resolve_child cfg brands parent_name parent (u, matched) row)
    as [u1 m1] eqn:E.
  apply IH.
  destruct (resolve_child_frame _ _ _ _ _ _ _ _ _ E) as (F & S & _).
  destruct H as (H1 & H2). unfold errors_track_log, stat. by rewrite F, S.
Qed.

Lemma track_process_parent_group n e0 cfg brands u group :
  errors_track_log n e0 u ->
  errors_track_log n e0 (process_parent_group cfg brands u group).
Proof.
  intros H. destruct group as [parent_name subs_list].
  unfold process_parent_group.
  destruct (filtered_out cfg _); [done|].
  destruct (find_best_match _ _ _) as [[parent_match parent_score] status].
  assert (B : forall key k v, key <> "errors" -> errors_track_log n e0 v ->
                              errors_track_log n e0 (bump key k v))
    by (intros; by apply track_bump).
  assert (Hrej : forall r, errors_track_log n e0
            (add_unmatched r
               (bump "subsidiaries_rejected" 1 (bump "subsidiaries_processed" 1 u)))).
  { intros r. apply (track_pure n e0 _ (add_unmatched r)); [done|done|].
    apply B; [done|]. by apply B. }
  destruct parent_match as [parent|]; [|by destruct status].
  destruct status; [| |by apply Hrej].
  - pose proof (track_resolve_children n e0 cfg brands parent_name parent subs_list
                  (bump "subsidiaries_processed" 1 u) []
                  (B "subsidiaries_processed" 1 u ltac:(done) H)) as T.
    destruct (fold_left _ subs_list _) as [v1 m1]. cbn [fst] in T.
    destruct m1 as [|m m1]; [exact T|].
    apply track_upload_subsidiary. apply B; [done|]. by apply B.
  - pose proof (track_resolve_children n e0 cfg brands parent_name parent subs_list
                  (bump "subsidiaries_processed" 1 u) []
                  (B "subsidiaries_processed" 1 u ltac:(done) H)) as T.
    destruct (fold_left _ subs_list _) as [v1 m1]. cbn [fst] in T.
    apply (track_pure n e0 _ (enqueue _)); [done|done|]. by apply B.
Qed.

(** X13. At the end of a run the error counter equals the number of
    failed calls logged during the run that are contact social merges or
    child parent-reference writes; failed parent subsidiary-set merges
    are logged but not counted.  In particular a dry run counts no
    error. *)
Theorem errors_count_logged_failures cfg contacts subsidiaries brands client :
  stat (run_upload cfg contacts subsidiaries brands client) "errors"
  = length
      (List.filter counted_failure
         (drop (length (calls client))
            (calls (firebase_client
                      (run_upload cfg contacts subsidiaries brands client))))).
Proof.
  assert (H : errors_track_log (length (calls client)) 0
                (run_upload cfg contacts subsidiaries brands client)).
  { unfold run_upload, process_subsidiaries, process_contacts.
    assert (F : forall A (f : Uploader -> A -> Uploader) (l : list A) n e0,
               (forall u x, errors_track_log n e0 u -> errors_track_log n e0 (f u x)) ->
               forall u, errors_track_log n e0 u ->
                         errors_track_log n e0 (fold_left f l u)).
    { intros A f l n e0 Hf. induction l as [|x l IH]; intros u Hu; [done|].
      cbn [fold_left]. apply IH. by apply Hf. }
    apply F; [intros; by apply track_process_parent_group|].
    apply F; [intros; by apply track_process_contact|].
    unfold errors_track_log, new_uploader. cbn [firebase_client].
    split; [done|]. rewrite drop_all. by vm_compute. }
  destruct H as [_ H]. exact H.
Qed.
End ErrorCounter.

Lemma group_append_keys key row groups :
  map fst (group_append key row groups)
  = if decide (key ∈ map fst groups) then map fst groups else map fst groups ++ [key].
Proof.
  induction groups as [|[k rows] rest IH].
  - cbn [group_append map fst]. case_decide as H; [|done].
    by apply elem_of_nil in H.
  - cbn [group_append]. destruct (String.eqb_spec key k) as [->|Hne].
    + cbn [map fst]. rewrite decide_True; [done|]. apply list_elem_of_here.
    + cbn [map fst]. rewrite IH. destruct (decide (key ∈ map fst rest)) as [Hin|Hnin].
      * rewrite decide_True; [done|]. by apply list_elem_of_further.
      * rewrite decide_False; [done|]. intros H. apply elem_of_cons in H. tauto.
Qed.

Lemma group_append_Forall (P0 P : string * list Row -> Prop) key row groups :
  (forall g, P0 g -> P g) ->
  (forall rows, P0 (key, rows) -> P (key, rows ++ [row])) ->
  P (key, [row]) ->
  Forall P0 groups -> Forall P (group_append key row groups).
Proof.
  intros Hkeep Hgrow Hnew. induction 1 as [|[k rows] rest Hg Hrest IH].
  - by repeat constructor.
  - cbn [group_append]. destruct (String.eqb_spec key k) as [->|Hne].
    + constructor; [by apply Hgrow|]. eapply Forall_impl; [exact Hrest|done].
    + constructor; [by apply Hkeep|done].
Qed.

Lemma group_append_rows key row groups :
  Permutation (concat (map snd (group_append key row groups)))
    (concat (map snd groups) ++ [row]).
Proof.
  induction groups as [|[k rows] rest IH].
  - done.
  - cbn [group_append]. destruct (String.eqb_spec key k) as [->|Hne].
    + cbn [map snd concat]. rewrite <- !app_assoc.
      apply Permutation_app_head. apply Permutation_app_comm.
    + cbn [map snd concat]. rewrite IH. by rewrite app_assoc.
Qed.

Lemma fold_left_prefix_inv {A B} (f : B -> A -> B) (I : list A -> B -> Prop) b0 :
  I [] b0 ->
  (forall pre b x, I pre b -> I (pre ++ [x]) (f b x)) ->
  forall l, I l (fold_left f l b0).
Proof.
  intros H0 Hstep l.
  assert (G : forall l pre b, I pre b -> I (pre ++ l) (fold_left f l b)).
  { clear l. induction l as [|x l IH]; intros pre b Hb.
    - by rewrite app_nil_r.
    - cbn [fold_left]. replace (pre ++ x :: l) with ((pre ++ [x]) ++ l)
        by (by rewrite <- app_assoc).
      apply IH. by apply Hstep. }
  apply (G l [] b0 H0).
Qed.

(** X14. Grouping subsidiary rows by parent name: the group keys are
    pairwise distinct; every group is non-empty, holds only groupable rows
    whose stripped parent name is the key, in their original order; and
    the groups together hold exactly the groupable rows (rows with a blank
    parent or subsidiary name are dropped, no other row is lost or
    duplicated). *)
Theorem group_by_parent_partition (rows : list Row) :
  NoDup (map fst (group_by_parent rows))
  /\ Forall (fun g => snd g <> []
                      /\ Forall (fun r => parent_key r = fst g /\ groupable r = true) (snd g)
                      /\ sublist (snd g) rows)
       (group_by_parent rows)
  /\ Permutation (concat (map snd (group_by_parent rows))) (List.filter groupable rows).
Proof.
  unfold group_by_parent.
  apply (fold_left_prefix_inv _
           (fun pre groups =>
              NoDup (map fst groups)
              /\ Forall (fun g => snd g <> []
                                  /\ Forall (fun r => parent_key r = fst g
                                                      /\ groupable r = true) (snd g)
                                  /\ sublist (snd g) pre) groups
              /\ Permutation (concat (map snd groups)) (List.filter groupable pre))).
  { split; [constructor|]. split; [constructor|done]. }
  intros pre groups row (Hk & Hg & Hp).
  fold (parent_key row). rewrite List.filter_app. cbn [List.filter].
  change (nonempty (parent_key row)
          && nonempty (py_strip (row_get row "subsidiary_name_raw")))
    with (groupable row).
  destruct (groupable row) eqn:E.
  - split; [|split].
    + rewrite group_append_keys. destruct (decide (parent_key row ∈ map fst groups));
        [done|]. apply NoDup_app. split; [done|]. split; [|apply NoDup_singleton].
      intros k Hin Hk'. apply list_elem_of_singleton in Hk'. by subst k.
    + eapply group_append_Forall; [| | |exact Hg].
      * intros g (G1 & G2 & G3). split; [done|]. split; [done|].
        by apply sublist_inserts_r.
      * intros rs (G1 & G2 & G3). cbn [fst snd] in *.
        split; [by destruct rs|]. split.
        -- apply Forall_app. split; [done|]. by repeat constructor.
        -- by apply sublist_app.
      * cbn [fst snd]. split; [done|]. split; [by repeat constructor|].
        apply sublist_inserts_l. reflexivity.
    + rewrite group_append_rows. by apply Permutation_app_tail.
  - rewrite app_nil_r. split; [done|]. split; [|done].
    eapply Forall_impl; [exact Hg|]. intros g (G1 & G2 & G3).
    split; [done|]. split; [done|]. by apply sublist_inserts_r.
Qed.

Section GroupExtras.
Context {M : FuzzMetrics}.

(** X15. A parent group whose parent is rejected, or has no match, is
    not resolved any further: whatever its rows, the group adds exactly
    one [subsidiary_parent] record to the unmatched list and counts as
    processed and rejected; the review queue and the client are left as
    they were. *)
Theorem rejected_parent_group cfg brands u parent_name (subs_list : list Row) e s d :
  filtered_out cfg parent_name = false ->
  find_best_match (fuzzy_matcher cfg)
    (normalize_company_name (Some parent_name)) brands = (e, s, d) ->
  d = reject \/ e = None ->
  firebase_client (process_parent_group cfg brands u (parent_name, subs_list))
  = firebase_client u
  /\ manual_review_queue (process_parent_group cfg brands u (parent_name, subs_list))
     = manual_review_queue u
  /\ unmatched_companies (process_parent_group cfg brands u (parent_name, subs_list))
     = unmatched_companies u
       ++ [mkUnmatched "subsidiary_parent" parent_name None
             (normalize_company_name (Some parent_name)) s]
  /\ stat (process_parent_group cfg brands u (parent_name, subs_list))
       "subsidiaries_rejected" = stat u "subsidiaries_rejected" + 1
  /\ stat (process_parent_group cfg brands u (parent_name, subs_list))
       "subsidiaries_processed" = stat u "subsidiaries_processed" + 1.
Proof.
  intros Hf Hbest Hrej. unfold process_parent_group. rewrite Hf, Hbest.
  assert (G : forall v,
             v = add_unmatched
                   (mkUnmatched "subsidiary_parent" parent_name None
                      (normalize_company_name (Some parent_name)) s)
                   (bump "subsidiaries_rejected" 1
                      (bump "subsidiaries_processed" 1 u)) ->
             firebase_client v = firebase_client u
             /\ manual_review_queue v = manual_review_queue u
             /\ unmatched_companies v
                = unmatched_companies u
                  ++ [mkUnmatched "subsidiary_parent" parent_name None
                        (normalize_company_name (Some parent_name)) s]
             /\ stat v "subsidiaries_rejected" = stat u "subsidiaries_rejected" + 1
             /\ stat v "subsidiaries_processed" = stat u "subsidiaries_processed" + 1).
  { intros v ->. repeat split; try done.
    - change (stat (add_unmatched ?r ?v)) with (stat v). by rewrite !stat_bump.
    - change (stat (add_unmatched ?r ?v)) with (stat v). by rewrite !stat_bump. }
  apply G. destruct Hrej as [-> | ->]; [by destruct e|by destruct d].
Qed.
End GroupExtras.

Lemma rejected_parent_group_witness :
  manual_review_queue
    (process_parent_group (M := exact_metrics) (default_config false) sample_brands
       (new_uploader (mkFirestore sample_docs [] []))
       ("Zenith Ltd.", [acme_zeta_row]))
  = [].
Proof.
  apply (rejected_parent_group (M := exact_metrics) (default_config false)
           sample_brands (new_uploader (mkFirestore sample_docs [] []))
           "Zenith Ltd." [acme_zeta_row] None 0%Q reject eq_refl eq_refl).
  by left.
Defined.

Lemma appends_only_refl ts rs u u' :
  manual_review_queue u' = manual_review_queue u ->
  unmatched_companies u' = unmatched_companies u ->
  appends_only ts rs u u'.
Proof.
  intros Hq Hm. exists [], []. rewrite !app_nil_r. repeat split; try done; constructor.
Qed.

Lemma appends_only_trans ts rs u1 u2 u3 :
  appends_only ts rs u1 u2 -> appends_only ts rs u2 u3 -> appends_only ts rs u1 u3.
Proof.
  intros (i1 & r1 & Q1 & T1 & M1 & R1) (i2 & r2 & Q2 & T2 & M2 & R2).
  exists (i1 ++ i2), (r1 ++ r2). rewrite Q2, Q1, M2, M1, !app_assoc.
  repeat split; try done; by apply Forall_app.
Qed.

Lemma appends_only_enqueue ts rs u item :
  In (item_type item) ts -> appends_only ts rs u (enqueue item u).
Proof.
  intros H. exists [item], []. cbn. rewrite app_nil_r.
  repeat split; try done; by repeat constructor.
Qed.

Lemma appends_only_unmatched ts rs u r :
  In (um_type r) rs -> appends_only ts rs u (add_unmatched r u).
Proof.
  intros H. exists [], [r]. cbn. rewrite app_nil_r.
  repeat split; try done; by repeat constructor.
Qed.

Lemma appends_only_fold {A} ts rs (f : Uploader -> A -> Uploader) (l : list A) :
  (forall u x, appends_only ts rs u (f u x)) ->
  forall u, appends_only ts rs u (fold_left f l u).
Proof.
  intros Hf. induction l as [|x l IH]; intros u.
  - by apply appends_only_refl.
  - cbn [fold_left]. eapply appends_only_trans; [apply Hf|apply IH].
Qed.

Section AppendOnly.
Context {M : FuzzMetrics}.

Lemma upload_subsidiary_info_frame cfg parent_id parent_name matched u :
  manual_review_queue (_upload_subsidiary_info cfg parent_id parent_name matched u)
  = manual_review_queue u
  /\ unmatched_companies (_upload_subsidiary_info cfg parent_id parent_name matched u)
     = unmatched_companies u.
Proof.
  unfold _upload_subsidiary_info.
  destruct (update_parent_subsidiaries _ _ _ _) as [ok fs].
  change (manual_review_queue u) with (manual_review_queue (with_client fs u)).
  change (unmatched_companies u) with (unmatched_companies (with_client fs u)).
  generalize (with_client fs u). clear u.
  induction matched as [|m matched IH]; intros u; [done|].
  cbn [fold_left].
  destruct (update_brand_parent_info _ _ _ _ _) as [ok' fs'].
  destruct (IH (if ok' then with_client fs' u else bump "errors" 1 (with_client fs' u)))
    as [E1 E2].
  rewrite E1, E2. by destruct ok'.
Qed.

Lemma process_contact_appends cfg brands u contact :
  appends_only ["contact"] ["contact"] u (process_contact cfg brands u contact).
Proof.
  unfold process_contact.
  destruct (filtered_out cfg _); [by apply appends_only_refl|].
  destruct (negb (nonempty _)); [by apply appends_only_refl|].
  destruct (find_best_match _ _ _) as [[best_match score] status].
  destruct status; destruct best_match as [brand|];
    try (eapply appends_only_trans;
         [|apply appends_only_unmatched; by left]; by apply appends_only_refl).
  - destruct (upload_contact_info_frame cfg (brand_id brand) contact
                (bump "contacts_matched" 1
                   (bump "contacts_auto_accepted" 1 (bump "contacts_processed" 1 u))))
      as (F1 & F2 & _).
    by apply appends_only_refl.
  - eapply appends_only_trans; [|apply appends_only_enqueue; by left].
    by apply appends_only_refl.
Qed.

Lemma resolve_child_appends cfg brands parent_name parent st row :
  appends_only ["subsidiary"; "subsidiary_parent"] ["subsidiary"; "subsidiary_parent"]
    (fst st) (fst (resolve_child cfg brands parent_name parent st row)).
Proof.
  destruct st as [u matched]. unfold resolve_child.
  destruct (find_best_match _ _ _) as [[sub_match sub_score] sub_status].
  destruct sub_status; destruct sub_match as [sub|]; cbn [fst];
    try (apply appends_only_unmatched; by left).
  - by apply appends_only_refl.
  - apply appends_only_enqueue. by left.
Qed.

Lemma resolve_children_appends cfg brands parent_name parent rows :
  forall st,
    appends_only ["subsidiary"; "subsidiary_parent"]
      ["subsidiary"; "subsidiary_parent"]
      (fst st) (fst (fold_left (resolve_child cfg brands parent_name parent) rows st)).
Proof.
  induction rows as [|row rows IH]; intros st; [by apply appends_only_refl|].
  cbn [fold_left]. eapply appends_only_trans;
    [apply resolve_child_appends|apply IH].
Qed.

Lemma process_parent_group_appends cfg brands u group :
  appends_only ["subsidiary"; "subsidiary_parent"] ["subsidiary"; "subsidiary_parent"]
    u (process_parent_group cfg brands u group).
Proof.
  destruct group as [parent_name subs_list]. unfold process_parent_group.
  destruct (filtered_out cfg _); [by apply appends_only_refl|].
  destruct (find_best_match _ _ _) as [[parent_match parent_score] status].
  assert (Hrej : forall r, um_type r = "subsidiary_parent" ->
             appends_only ["subsidiary"; "subsidiary_parent"]
               ["subsidiary"; "subsidiary_parent"] u
               (add_unmatched r
                  (bump "subsidiaries_rejected" 1 (bump "subsidiaries_processed" 1 u)))).
  { intros r Hr. eapply appends_only_trans;
      [|apply appends_only_unmatched; rewrite Hr; right; by left].
    by apply appends_only_refl. }
  destruct parent_match as [parent|]; [|destruct status; by apply Hrej].
  destruct status; [| |by apply Hrej].
  - assert (Hc : appends_only ["subsidiary"; "subsidiary_parent"]
                   ["subsidiary"; "subsidiary_parent"] u
                   (fst (fold_left (resolve_child cfg brands parent_name parent)
                           subs_list (bump "subsidiaries_processed" 1 u, [])))).
    { eapply appends_only_trans; [by apply (appends_only_refl _ _ u
                                              (bump "subsidiaries_processed" 1 u))|].
      apply (resolve_children_appends cfg brands parent_name parent subs_list
               (bump "subsidiaries_processed" 1 u, [])). }
    destruct (fold_left _ subs_list _) as [v1 m1]. cbn [fst] in Hc.
    destruct m1 as [|m m1]; [exact Hc|].
    destruct (upload_subsidiary_info_frame cfg (brand_id parent) parent_name (m :: m1)
                (bump "subsidiaries_matched" (length (m :: m1))
                   (bump "subsidiaries_auto_accepted" 1 v1))) as [F1 F2].
    eapply appends_only_trans; [exact Hc|]. by apply appends_only_refl.
  - assert (Hc : appends_only ["subsidiary"; "subsidiary_parent"]
                   ["subsidiary"; "subsidiary_parent"] u
                   (fst (fold_left (resolve_child cfg brands parent_name parent)
                           subs_list (bump "subsidiaries_processed" 1 u, [])))).
    { eapply appends_only_trans; [by apply (appends_only_refl _ _ u
                                              (bump "subsidiaries_processed" 1 u))|].
      apply (resolve_children_appends cfg brands parent_name parent subs_list
               (bump "subsidiaries_processed" 1 u, [])). }
    destruct (fold_left _ subs_list _) as [v1 m1]. cbn [fst] in Hc.
    eapply appends_only_trans; [exact Hc|].
    eapply appends_only_trans; [|apply appends_only_enqueue; right; by left].
    by apply appends_only_refl.
Qed.

(** X16. Both resolution flows only append: [process_contacts] extends
    the review queue and the unmatched list by entries of type
    [contact], [process_subsidiaries] by entries of type [subsidiary] or
    [subsidiary_parent]; entries already present are neither removed nor
    reordered. *)
Theorem resolution_appends_only cfg contacts subsidiaries brands u :
  appends_only ["contact"] ["contact"] u (process_contacts cfg contacts brands u)
  /\ appends_only ["subsidiary"; "subsidiary_parent"]
       ["subsidiary"; "subsidiary_parent"] u
       (process_subsidiaries cfg subsidiaries brands u).
Proof.
  split.
  - apply appends_only_fold. intros. apply process_contact_appends.
  - apply appends_only_fold. intros. apply process_parent_group_appends.
Qed.

Lemma update_brand_parent_info_log fs brand company parent :
  calls (snd (update_brand_parent_info fs brand (Some company) (Some parent) false))
  = calls fs
    ++ [(SetParentInfo brand (Some company) (Some parent),
         fst (update_brand_parent_info fs brand (Some company) (Some parent) false))].
Proof. apply remote_update_log. Qed.

Lemma update_parent_subsidiaries_log fs parent ids :
  calls (snd (update_parent_subsidiaries fs parent ids false))
  = calls fs
    ++ [(SetSubsidiaries parent ids,
         fst (update_parent_subsidiaries fs parent ids false))].
Proof. apply remote_update_log. Qed.

Lemma children_calls parent_id parent_name (matched : list (string * Brand * Q)) :
  forall v,
    exists results,
      length results = length matched
      /\ calls (firebase_client
                  (fold_left
                     (fun u m =>
                        let '(sub_success, fs) :=
                          update_brand_parent_info (firebase_client u) (fst (fst m))
                            (Some parent_name) (Some parent_id) false in
                        let u := with_client fs u in
                        if sub_success then u else bump "errors" 1 u) matched v))
         = calls (firebase_client v)
           ++ zip (map (fun m => SetParentInfo (fst (fst m)) (Some parent_name)
                                   (Some parent_id)) matched) results.
Proof.
  induction matched as [|m l IH]; intros v.
  - exists []. split; [done|]. cbn. by rewrite app_nil_r.
  - cbn [fold_left].
    pose proof (update_brand_parent_info_log (firebase_client v) (fst (fst m))
                  parent_name parent_id) as L.
    destruct (update_brand_parent_info (firebase_client v) _ _ _ _) as [ok fs].
    cbn [fst snd] in L.
    destruct (IH (if ok then with_client fs v else bump "errors" 1 (with_client fs v)))
      as (results & Hlen & E).
    exists (ok :: results). split; [simpl; lia|].
    etransitivity; [exact E|].
    assert (Hc : calls (firebase_client
                          (if ok then with_client fs v
                           else bump "errors" 1 (with_client fs v)))
                 = calls fs) by (by destruct ok).
    rewrite Hc, L, <- app_assoc. done.
Qed.

(** X17. With dry run off, uploading the links of an auto-accepted parent
    issues the parent's subsidiary-set merge first and then exactly one
    parent-reference write per matched child, in order; a failure of any
    of them neither stops the remaining writes nor is retried. *)
Theorem upload_subsidiary_info_calls cfg parent_id parent_name
    (matched : list (string * Brand * Q)) u :
  dry_run cfg = false ->
  map fst (drop (length (calls (firebase_client u)))
             (calls (firebase_client
                       (_upload_subsidiary_info cfg parent_id parent_name matched u))))
  = SetSubsidiaries parent_id (map (fun m => fst (fst m)) matched)
    :: map (fun m => SetParentInfo (fst (fst m)) (Some parent_name) (Some parent_id))
         matched.
Proof.
  intros Hdry. destruct cfg as [fm dr only]. cbn [dry_run] in Hdry. subst dr.
  unfold _upload_subsidiary_info. cbn [dry_run].
  pose proof (update_parent_subsidiaries_log (firebase_client u) parent_id
                (map (fun m => fst (fst m)) matched)) as L.
  destruct (update_parent_subsidiaries _ _ _ _) as [ok fs]. cbn [fst snd] in L.
  destruct (children_calls parent_id parent_name matched (with_client fs u))
    as (results & Hlen & E).
  cbn [firebase_client with_client] in E. rewrite L, <- app_assoc in E.
  etransitivity;
    [apply (f_equal (fun l => map fst (drop (length (calls (firebase_client u))) l)));
     exact E|].
  rewrite drop_app_length. cbn [app map fst]. f_equal.
  rewrite fst_zip; [done|]. rewrite length_map. lia.
Qed.
End AppendOnly.

Lemma upload_subsidiary_info_calls_witness :
  map fst
    (drop 0
       (calls (firebase_client
                 (_upload_subsidiary_info (default_config false)
                    "b1" "Acme Inc." [("b2", zeta_brand, 100%Q)]
                    (new_uploader (mkFirestore sample_docs [true] []))))))
  = [ SetSubsidiaries "b1" ["b2"];
      SetParentInfo "b2" (Some "Acme Inc.") (Some "b1") ].
Proof.
  apply (upload_subsidiary_info_calls (default_config false)
           "b1" "Acme Inc." [("b2", zeta_brand, 100%Q)]
           (new_uploader (mkFirestore sample_docs [true] []))).
  reflexivity.
Defined.

(** X18. What [process_review_item] reports: skip and any unknown choice
    report "not processed" and reject reports "processed", all three
    without touching the client; an accepted item is reported as not
    processed only when it is a contact item with a non-empty update whose
    write failed. *)
Theorem process_review_item_outcome item choice fs dry_run :
  (py_lower choice = "r" -> process_review_item item choice fs dry_run = (true, fs))
  /\ (py_lower choice <> "r" -> py_lower choice <> "a" ->
      process_review_item item choice fs dry_run = (false, fs))
  /\ (py_lower choice = "a" ->
      fst (process_review_item item choice fs dry_run) = false ->
      exists company normalized brand score contact top,
        item = ContactReview company normalized brand score contact top
        /\ social_updates_of contact <> ∅
        /\ fst (update_brand_social fs (brand_id brand) (social_updates_of contact)
                  dry_run) = false).
Proof.
  unfold process_review_item. split; [|split].
  - intros ->. done.
  - intros Hr Ha.
    destruct (String.eqb_spec (py_lower choice) "s"); [reflexivity|].
    destruct (String.eqb_spec (py_lower choice) "r"); [contradiction|].
    destruct (String.eqb_spec (py_lower choice) "a"); [contradiction|reflexivity].
  - intros ->. cbn [String.eqb Ascii.eqb Bool.eqb].
    destruct item as [company normalized brand score contact top| |]; cbn beta iota.
    + destruct (decide (social_updates_of contact = ∅)) as [|Hne];
        [intros H; discriminate H|].
      intros H. exists company, normalized, brand, score, contact, top.
      split; [reflexivity|]. split; [exact Hne|].
      destruct (update_brand_social _ _ _ _) as [[] fs']; [discriminate H|reflexivity].
    + destruct (update_parent_subsidiaries _ _ _ _) as [ok1 fs1].
      destruct (update_brand_parent_info _ _ _ _ _) as [ok2 fs2].
      intros H; discriminate H.
    + intros H; discriminate H.
Qed.

Lemma process_review_item_outcome_witness :
  process_review_item acme_review " R" (mkFirestore sample_docs [] []) false
  = (false, mkFirestore sample_docs [] []).
Proof.
  apply (process_review_item_outcome acme_review " R"
           (mkFirestore sample_docs [] []) false); discriminate.
Defined.

(** X19. Accepting a [subsidiary] item with dry run off issues the parent's
    subsidiary-set merge and then the child's parent-reference write, and
    reports the item as processed whatever the two calls return. *)
Theorem accept_subsidiary_item_calls parent_name parent_brand subsidiary_name
    normalized subsidiary_brand score top fs :
  fst (process_review_item
         (SubsidiaryReview parent_name parent_brand subsidiary_name normalized
            subsidiary_brand score top) "a" fs false) = true
  /\ map fst
       (drop (length (calls fs))
          (calls (snd (process_review_item
                         (SubsidiaryReview parent_name parent_brand subsidiary_name
                            normalized subsidiary_brand score top) "a" fs false))))
     = [ SetSubsidiaries (brand_id parent_brand) [brand_id subsidiary_brand];
         SetParentInfo (brand_id subsidiary_brand) (Some parent_name)
           (Some (brand_id parent_brand)) ].
Proof.
  unfold process_review_item. cbn [py_lower]. 
  change (py_lower "a") with "a". cbn [String.eqb Ascii.eqb Bool.eqb].
  pose proof (update_parent_subsidiaries_log fs (brand_id parent_brand)
                [brand_id subsidiary_brand]) as L1.
  destruct (update_parent_subsidiaries _ _ _ _) as [ok1 fs1]. cbn [fst snd] in L1.
  pose proof (update_brand_parent_info_log fs1 (brand_id subsidiary_brand)
                parent_name (brand_id parent_brand)) as L2.
  destruct (update_brand_parent_info _ _ _ _ _) as [ok2 fs2]. cbn [fst snd] in *.
  split; [done|]. rewrite L2, L1, <- app_assoc, drop_app_length. done.
Qed.

Lemma process_review_item_dry item choice fs :
  snd (process_review_item item choice fs true) = fs.
Proof.
  unfold process_review_item.
  destruct (String.eqb _ "s"); [done|]. destruct (String.eqb _ "r"); [done|].
  destruct (String.eqb _ "a"); [|done].
  destruct item as [? ? ? ? contact ?| |]; [|reflexivity|reflexivity].
  cbn beta iota. destruct (decide (social_updates_of contact = ∅)); reflexivity.
Qed.

(** X20. A dry-run review session leaves the client exactly as it was,
    however it ends. *)
Theorem review_session_dry_run review_items inputs fs :
  snd (review_session true review_items inputs fs) = fs.
Proof.
  unfold review_session. generalize (@nil ReviewItem) 0.
  revert inputs fs. induction review_items as [|item items IH];
    intros inputs fs remaining n; [done|].
  cbn [review_loop]. destruct (read_choice inputs) as [[choice inputs']|]; [|done].
  destruct (String.eqb choice "q"); [done|].
  pose proof (process_review_item_dry item choice fs) as D.
  destruct (process_review_item item choice fs true) as [processed fs1].
  cbn [snd] in D. subst fs1. destruct processed; apply IH.
Qed.

Lemma review_loop_completed dry_run items :
  forall inputs remaining n fs saved n' fs',
    review_loop dry_run items inputs remaining n fs = (Completed saved n', fs') ->
    exists kept_items,
      saved = remaining ++ kept_items /\ sublist kept_items items
      /\ length kept_items + n' = length items + n.
Proof.
  induction items as [|item items IH]; intros inputs remaining n fs saved n' fs' H.
  - cbn [review_loop] in H.
    pose proof (f_equal (fun r => saved_items (fst r)) H) as Hs.
    pose proof (f_equal (fun r => processed_total (fst r)) H) as Hn.
    cbn in Hs, Hn. subst saved n'. exists []. by rewrite app_nil_r.
  - cbn [review_loop] in H.
    destruct (read_choice inputs) as [[choice inputs']|].
    2:{ pose proof (f_equal (fun r => match fst r with
                                      | InputClosed => true
                                      | _ => false
                                      end) H) as Hc.
        cbn in Hc. discriminate Hc. }
    destruct (String.eqb choice "q").
    { pose proof (f_equal (fun r => is_quit (fst r)) H) as Hq.
      cbn in Hq. discriminate Hq. }
    destruct (process_review_item item choice fs dry_run) as [processed fs1].
    destruct processed.
    + destruct (IH _ _ _ _ _ _ _ H) as (kept_items & -> & Hsub & Hlen).
      exists kept_items. split; [done|]. split; [by apply sublist_cons|]. simpl. lia.
    + destruct (IH _ _ _ _ _ _ _ H) as (kept_items & -> & Hsub & Hlen).
      exists (item :: kept_items). split; [by rewrite <- app_assoc|].
      split; [by apply sublist_skip|]. simpl. lia.
Qed.

(** X21. When the session runs to the end of the queue, the saved list is
    a subsequence of the queue, and the saved items and the processed ones
    add up to the length of the queue. *)
Theorem completed_session_accounting dry_run review_items inputs fs saved n fs' :
  review_session dry_run review_items inputs fs = (Completed saved n, fs') ->
  sublist saved review_items /\ length saved + n = length review_items.
Proof.
  intros H. unfold review_session in H.
  destruct (review_loop_completed _ _ _ _ _ _ _ _ _ H) as (kept_items & -> & Hsub & Hlen).
  cbn [app]. split; [done|lia].
Qed.

Lemma completed_session_accounting_witness :
  sublist [acme_review] [acme_review; zeta_review]
  /\ length [acme_review] + 1 = length [acme_review; zeta_review].
Proof.
  apply (completed_session_accounting true [acme_review; zeta_review] ["s"; "a"]
           (mkFirestore sample_docs [] []) [acme_review] 1
           (mkFirestore sample_docs [] [])).
  vm_compute. reflexivity.
Defined.

(** X22. The prompt discards invalid lines: the choice read is the first
    valid line, stripped and lower-cased, and the lines after it are left
    for the next prompt; if no line is valid the input runs out. *)
Theorem read_choice_first_valid (bad : list string) good rest :
  Forall (fun line => valid_choice line = false) bad ->
  (valid_choice good = true ->
   read_choice (bad ++ good :: rest) = Some (py_lower (py_strip good), rest))
  /\ read_choice bad = None.
Proof.
  induction 1 as [|line bad Hline Hbad IH].
  - split; [|done]. intros Hg. cbn [app read_choice].
    unfold valid_choice in Hg. by rewrite Hg.
  - destruct IH as [IH1 IH2]. unfold valid_choice in Hline.
    split; [intros Hg|]; cbn [app read_choice]; rewrite Hline; auto.
Qed.

Lemma read_choice_first_valid_witness :
  read_choice (["yes"; ""] ++ " A " :: ["q"]) = Some (py_lower (py_strip " A "), ["q"]).
Proof.
  apply (read_choice_first_valid ["yes"; ""] " A " ["q"]).
  - repeat constructor.
  - reflexivity.
Defined.

Lemma filter_subsidiary_fold (e i : Row -> bool) rows kept fc ic :
  fold_left (filter_subsidiary_step e i) rows (kept, fc, ic) =
  (kept ++ List.filter (passes_filters e i) rows,
   fc + length (List.filter e rows),
   ic + length (List.filter (fun r => negb (e r) && i r) rows)).
Proof.
  revert kept fc ic.
  induction rows as [|r rows IH]; intros kept fc ic.
  - cbn. rewrite app_nil_r, !Nat.add_0_r. reflexivity.
  - cbn [fold_left filter_subsidiary_step List.filter].
    unfold passes_filters.
    destruct (e r); cbn [negb andb].
    + rewrite IH. cbn [length]. rewrite Nat.add_succ_r. reflexivity.
    + destruct (i r); cbn [negb andb].
      * rewrite IH. cbn [length]. rewrite Nat.add_succ_r. reflexivity.
      * rewrite IH. rewrite <- app_assoc. reflexivity.
Qed.

(** X23. [filter_subsidiary_data] accounts for every row exactly once: the
    rows it returns are the rows on which neither test fires, in their
    original order; the first counter is the number of rows the
    extraction-error test rejects; the second is the number of rows that
    pass that test and are rejected as incomplete; and the three sizes add
    up to the number of rows given. *)
Theorem filter_subsidiary_data_accounting (e i : Row -> bool) rows :
  let '(filtered_rows, filtered_count, incomplete_count) :=
    filter_subsidiary_data e i rows in
  filtered_rows = List.filter (passes_filters e i) rows /\
  filtered_count = length (List.filter e rows) /\
  incomplete_count =
    length (List.filter (fun r => negb (e r) && i r) rows) /\
  length filtered_rows + filtered_count + incomplete_count = length rows.
Proof.
  unfold filter_subsidiary_data. rewrite filter_subsidiary_fold.
  cbn [app Nat.add]. repeat split.
  induction rows as [|r rows IH]; [reflexivity|].
  cbn [List.filter length]. unfold passes_filters in *.
  destruct (e r), (i r); cbn [negb andb length]; lia.
Qed.
